(** * convert_logs_to_excel: the table-block parser and its driver

    A shallow embedding of [convert_logs_to_excel.py] and the properties of
    its block splitter, row extractor, block parser, value normaliser and
    column-order bookkeeping.

    Python values are modelled as follows.
    - A [str] is a sequence of Unicode code points: [list N].
    - A [dict] is insertion ordered: an association list whose keys are
      pairwise distinct, updated in place when a key is set again.
    - A [float] is an IEEE-754 binary64 number: an exact rational for finite
      values, the two infinities and NaN, with round-to-nearest-even.
    - A [list] that the code shares between names lives in a heap of list
      objects (part 6); the pure functions of parts 3 to 5 are shown to
      compute what the heap-passing version returns. *)

From Stdlib Require Import ZArith NArith QArith List String Ascii Lia.
From Stdlib Require Import DecimalString DecimalNat DecimalFacts.
From Stdlib Require Import Sorting.Sorted Sorting.Permutation.
From stdpp Require Import base option list gmap.
Import ListNotations.

(* ================================================================== *)
(** * 1. Python strings *)
(* ================================================================== *)

Module Py.

Open Scope N_scope.

Definition char := N.
Definition str := list char.

(** A string literal of the source, as code points. *)
Definition lit (s : string) : str := map N_of_ascii (list_ascii_of_string s).

Definition pipe : char := 124.
Definition newline : char := 10.
Definition carriage_return : char := 13.

(** [str.isspace] on one code point (general category Zs, or bidirectional
    class WS, B or S); this is also what [\s] matches in a [str] pattern. *)
Definition is_space (c : char) : bool :=
  ((9 <=? c) && (c <=? 13)) || ((28 <=? c) && (c <=? 32))
  || (c =? 133) || (c =? 160) || (c =? 5760)
  || ((8192 <=? c) && (c <=? 8202))
  || (c =? 8232) || (c =? 8233) || (c =? 8239) || (c =? 8287) || (c =? 12288).

(** The line boundaries of [str.splitlines]. *)
Definition is_linebreak (c : char) : bool :=
  ((10 <=? c) && (c <=? 13)) || ((28 <=? c) && (c <=? 30))
  || (c =? 133) || (c =? 8232) || (c =? 8233).

Definition is_digit (c : char) : bool := (48 <=? c) && (c <=? 57).

Fixpoint drop_while (p : char -> bool) (s : str) : str :=
  match s with
  | [] => []
  | c :: rest => if p c then drop_while p rest else s
  end.

Fixpoint take_while (p : char -> bool) (s : str) : str :=
  match s with
  | [] => []
  | c :: rest => if p c then c :: take_while p rest else []
  end.

Definition lstrip_by (p : char -> bool) (s : str) : str := drop_while p s.
Definition rstrip_by (p : char -> bool) (s : str) : str :=
  rev (drop_while p (rev s)).
Definition strip_by (p : char -> bool) (s : str) : str :=
  rstrip_by p (lstrip_by p s).

(** [s.strip()], [s.strip("|")] and [s.rstrip("\n")]. *)
Definition strip (s : str) : str := strip_by is_space s.
Definition strip_chars (c : char) (s : str) : str := strip_by (N.eqb c) s.
Definition rstrip_chars (c : char) (s : str) : str := rstrip_by (N.eqb c) s.

(** [s.startswith(c)] for a one-character prefix. *)
Definition startswith (c : char) (s : str) : bool :=
  match s with
  | c' :: _ => c' =? c
  | [] => false
  end.

(** [s.split(sep)] for a one-character separator: never the empty list. *)
Fixpoint split_on (sep : char) (s : str) : list str :=
  match s with
  | [] => [[]]
  | c :: rest =>
      if c =? sep then [] :: split_on sep rest
      else match split_on sep rest with
           | piece :: pieces => (c :: piece) :: pieces
           | [] => [[c]]
           end
  end.

(** [s.split()]: the maximal runs of non-whitespace, none of them empty. *)
Fixpoint split_ws (s : str) : list str :=
  match s with
  | [] => []
  | c :: rest =>
      if is_space c then split_ws rest
      else (c :: take_while (fun d => negb (is_space d)) rest)
             :: split_ws_skip rest
  end
with split_ws_skip (s : str) : list str :=
  match s with
  | [] => []
  | c :: rest => if is_space c then split_ws rest else split_ws_skip rest
  end.

(** [sep.join(pieces)]. *)
Fixpoint join (sep : str) (pieces : list str) : str :=
  match pieces with
  | [] => []
  | [piece] => piece
  | piece :: rest => piece ++ sep ++ join sep rest
  end.

(** [text.splitlines()]: lines without their terminators, ["\r\n"] counted
    as one terminator, and no empty last line after a final terminator. *)
Fixpoint splitlines (s : str) : list str :=
  match s with
  | [] => []
  | c :: rest =>
      if is_linebreak c then
        [] :: match rest with
              | c' :: rest' =>
                  if (c =? carriage_return) && (c' =? newline)
                  then splitlines rest' else splitlines rest
              | [] => []
              end
      else match splitlines rest with
           | line :: lines => (c :: line) :: lines
           | [] => [[c]]
           end
  end.

(** [str(i)] for a non-negative integer. *)
Definition str_of_nat (i : nat) : str :=
  lit (NilZero.string_of_uint (Nat.to_uint i)).

(** [s.upper()] maps each code point separately.  ASCII letters are given
    here; the full upper-case mapping of the code points from 128 on is the
    Unicode table of the interpreter, a parameter [upper_table] of the
    program below. *)
Definition upper_ascii (c : char) : char :=
  if (97 <=? c) && (c <=? 122) then c - 32 else c.

Definition upper_with (upper_table : char -> str) (s : str) : str :=
  flat_map (fun c => if c <? 128 then [upper_ascii c] else upper_table c) s.

End Py.

(* ================================================================== *)
(** * 2. Python floats *)
(* ================================================================== *)

Module PyFloat.

Open Scope Z_scope.

(** A binary64 value.  Finite values are exact rationals in lowest terms;
    the sign of zero is not tracked (nothing below observes it). *)
Inductive float :=
  | Finite (q : Q)
  | Inf (negative : bool)
  | NaN.

(** [n/d] divided by [2^p], as a fraction of integers. *)
Definition scale (n d p : Z) : Z * Z :=
  if 0 <=? p then (n, d * 2 ^ p) else (n * 2 ^ (- p), d).

(** The exponent [e] with [2^e <= n/d < 2^(e+1)], for positive [n] and [d]. *)
Definition binade (n d : Z) : Z :=
  let e := Z.log2 n - Z.log2 d in
  let '(a, b) := scale n d e in
  if b <=? a then e else e - 1.

(** The multiple [m * 2^p] as a rational in lowest terms. *)
Definition dyadic (m p : Z) : Q :=
  if 0 <=? p then (m * 2 ^ p) # 1 else Qred (m # Z.to_pos (2 ^ (- p))).

(** Round the positive rational [n/d] to the nearest binary64 value, ties to
    even: 53 significant bits, least exponent -1074, overflow to infinity. *)
Definition round_pos (n d : Z) : float :=
  let p := Z.max (binade n d - 52) (- 1074) in
  let '(a, b) := scale n d p in
  let m := a / b in
  let r := a mod b in
  let m' := if (b <? 2 * r) || ((b =? 2 * r) && Z.odd m) then m + 1 else m in
  if (0 <=? p) && (2 ^ 1024 <=? m' * 2 ^ p) then Inf false
  else Finite (dyadic m' p).

Definition neg (f : float) : float :=
  match f with
  | Finite q => Finite (Qred (- q))
  | Inf s => Inf (negb s)
  | NaN => NaN
  end.

Definition round (q : Q) : float :=
  match Qnum q with
  | 0 => Finite 0
  | Z.pos n => round_pos (Z.pos n) (Z.pos (Qden q))
  | Z.neg n => neg (round_pos (Z.pos n) (Z.pos (Qden q)))
  end.

(** The conversion of an [int] operand, as in [amount * multiplier]. *)
Definition of_Z (z : Z) : float := round (z # 1).

Definition Qltb (a b : Q) : bool :=
  Qnum a * Z.pos (Qden b) <? Qnum b * Z.pos (Qden a).

Definition Qis_zero (a : Q) : bool := Qnum a =? 0.

(** [a * b] on floats. *)
Definition mul (a b : float) : float :=
  match a, b with
  | NaN, _ | _, NaN => NaN
  | Finite x, Finite y => round (x * y)
  | Inf s, Inf t => Inf (xorb s t)
  | Inf s, Finite y | Finite y, Inf s =>
      if Qis_zero y then NaN else Inf (xorb s (Qltb y 0))
  end.

(** [f < z] for a float [f] and an [int] [z]: Python compares the two
    exactly, and every comparison with NaN is false. *)
Definition lt_int (f : float) (z : Z) : bool :=
  match f with
  | Finite q => Qltb q (z # 1)
  | Inf negative => negative
  | NaN => false
  end.

(** The value of a string of decimal digits. *)
Definition digits_value (s : Py.str) : Z :=
  fold_left (fun acc c => 10 * acc + (Z.of_N c - 48)) s 0.

(** [float(text)] for [text] = [ip] or [ip "." fd], both runs of decimal
    digits: the nearest binary64 value to the decimal number. *)
Definition of_decimal (ip fd : Py.str) : float :=
  round (digits_value (ip ++ fd) # Z.to_pos (10 ^ Z.of_nat (length fd))).

End PyFloat.

(* ================================================================== *)
(** * 3. Python dictionaries *)
(* ================================================================== *)

Import Py.

(** A [Dict[str, str]]: keys in insertion order. *)
Definition dict := list (str * str).

Fixpoint dict_get (d : dict) (key : str) : option str :=
  match d with
  | [] => None
  | (k, v) :: d' => if bool_decide (k = key) then Some v else dict_get d' key
  end.

(** [d[key] = value]: a key that is present keeps its position. *)
Fixpoint dict_set (d : dict) (key value : str) : dict :=
  match d with
  | [] => [(key, value)]
  | (k, v) :: d' =>
      if bool_decide (k = key) then (k, value) :: d'
      else (k, v) :: dict_set d' key value
  end.

(** [dict(pairs)]: the pairs are set from left to right. *)
Definition dict_of_pairs (pairs : list (str * str)) : dict :=
  fold_left (fun d kv => dict_set d kv.1 kv.2) pairs [].

Definition dict_keys (d : dict) : list str := map fst d.

(* ================================================================== *)
(** * 4. The parser: split_blocks, parse_block, parse_file *)
(* ================================================================== *)

Definition ESTIMATE_COLUMNS : list str :=
  map lit
    [ "ARCH"; "CONTEXT SIZE"; "BATCH SIZE (L / P)"; "FLASH ATTENTION";
      "MMAP LOAD"; "EMBEDDING ONLY"; "RERANKING"; "DISTRIBUTABLE";
      "OFFLOAD LAYERS"; "FULL OFFLOADED"; "RAM LAYERS (I + T + O)";
      "RAM UMA"; "RAM NONUMA"; "VRAM0 LAYERS (T + O)"; "VRAM0 UMA";
      "VRAM0 NONUMA" ]%string.

(** One turn of the loop of [split_blocks] on the state [(blocks, current)]. *)
Definition split_blocks_step (st : list (list str) * list str) (line : str)
  : list (list str) * list str :=
  let '(blocks, current) := st in
  if bool_decide (strip line = []) then
    match current with
    | [] => (blocks, current)
    | _ => (blocks ++ [current], [])
    end
  else (blocks, current ++ [rstrip_chars newline line]).

Definition split_blocks (text : str) : list (list str) :=
  let '(blocks, current) :=
    fold_left split_blocks_step (splitlines text) ([], []) in
  match current with
  | [] => blocks
  | _ => blocks ++ [current]
  end.

(** The row extractor: [[cell.strip() for cell in row.strip("|").split("|")]]. *)
Definition row_cells (row : str) : list str :=
  map strip (split_on pipe (strip_chars pipe row)).

(** [" ".join(col.split())]. *)
Definition normalize_column (col : str) : str := join (lit " ") (split_ws col).

(** [f"EXTRA_{i}"]. *)
Definition extra_name (i : nat) : str := lit "EXTRA_" ++ str_of_nat i.

(** Lines 101 to 106: the column list against a data row of [n] cells. *)
Definition reconcile (columns : list str) (n : nat) : list str :=
  if (length columns <? n)%nat then
    columns ++ map extra_name (seq (length columns) (n - length columns))
  else if (n <? length columns)%nat then firstn n columns
  else columns.

Section Program.

(** The upper-case mapping of the code points from 128 on. *)
Variable upper_table : char -> str.

Definition upper : str -> str := upper_with upper_table.

(** [rows] and [parsed] of [parse_block]. *)
Definition block_rows (block : list str) : list str :=
  List.filter (startswith pipe) block.

Definition block_parsed (block : list str) : list (list str) :=
  map row_cells (block_rows block).

(** [parsed[0][0].upper()]; every parsed row has a first cell. *)
Definition block_label (block : list str) : str :=
  upper (hd [] (hd [] (block_parsed block))).

Definition block_table_rows (block : list str) : list (list str) :=
  List.filter (fun r => (1 <? length r)%nat) (tl (block_parsed block)).

(** [columns] after line 97: the fixed or in-file names, normalised. *)
Definition block_normalized_columns (block : list str) : list str :=
  let columns :=
    if bool_decide (block_label block = lit "ESTIMATE") then ESTIMATE_COLUMNS
    else hd [] (block_table_rows block) in
  map normalize_column columns.

(** [columns] as it stands before the [zip], for the data row [data_row]. *)
Definition block_columns (block : list str) (data_row : list str) : list str :=
  reconcile (block_normalized_columns block) (length data_row).

Definition parse_block (block : list str) : option str * dict :=
  match block_rows block with
  | [] => (None, [])
  | _ =>
      match last (block_table_rows block) with
      | None => (Some (block_label block), [])
      | Some data_row =>
          (Some (block_label block),
           dict_of_pairs (combine (block_columns block data_row) data_row))
      end
  end.

(** The loop body of [parse_file] on the record built so far. *)
Definition merge_block (record : dict) (block : list str) : dict :=
  match parse_block block with
  | (None, _) | (Some [], _) | (_, []) => record
  | (Some label, values) =>
      fold_left (fun r kv => dict_set r (label ++ lit "_" ++ kv.1) kv.2)
                values record
  end.

(** [parse_file], on the file's name and the text read from it. *)
Definition parse_file (name text : str) : option dict :=
  match strip text with
  | [] => None
  | _ => Some (fold_left merge_block (split_blocks text) [(lit "file", name)])
  end.

(* ================================================================== *)
(** * 5. The value normaliser and the driver *)
(* ================================================================== *)

(** What a cell of the frame built from the records holds: the string of
    the record, or NaN where the record has no such key. *)
Inductive cell :=
  | CStr (s : str)
  | CNaN.

(** [str(value)]. *)
Definition str_of_cell (value : cell) : str :=
  match value with
  | CStr s => s
  | CNaN => lit "nan"
  end.

Definition is_unit (c : char) : bool :=
  bool_decide (c ∈ lit "KMBkmb").

(** [re.match(r"([0-9]+(?:\.[0-9]+)?)\s*([KMBkmb])", text)]: the digits of
    group 1 before and after the point, and group 2.  Each run is taken as
    long as it goes: a shorter run is followed by a character of the same
    run, which nothing later in the pattern accepts. *)
Definition match_parameters (text : str) : option (str * str * char) :=
  match take_while is_digit text with
  | [] => None
  | ip =>
      let after_ip := drop_while is_digit text in
      let '(fd, after_amount) :=
        match after_ip with
        | 46%N :: rest =>
            match take_while is_digit rest with
            | [] => ([], after_ip)
            | fd => (fd, drop_while is_digit rest)
            end
        | _ => ([], after_ip)
        end in
      match drop_while is_space after_amount with
      | u :: _ => if is_unit u then Some (ip, fd, u) else None
      | [] => None
      end
  end.

(** [{"K": 1_000, "M": 1_000_000, "B": 1_000_000_000}.get(unit)]. *)
Definition multiplier_of (unit : str) : option Z :=
  if bool_decide (unit = lit "K") then Some 1000%Z
  else if bool_decide (unit = lit "M") then Some 1000000%Z
  else if bool_decide (unit = lit "B") then Some 1000000000%Z
  else None.

Definition parse_parameters (value : option cell) : option PyFloat.float :=
  match value with
  | None => None
  | Some value =>
      let text := strip (str_of_cell value) in
      match text with
      | [] => None
      | _ =>
          match match_parameters text with
          | None => None
          | Some (ip, fd, u) =>
              let amount := PyFloat.of_decimal ip fd in
              let unit := upper [u] in
              match multiplier_of unit with
              | None => None
              | Some multiplier => Some (PyFloat.mul amount (PyFloat.of_Z multiplier))
              end
          end
      end
  end.

Definition size_category (params : option PyFloat.float) : str :=
  match params with
  | None => lit "Unknown"
  | Some params =>
      if PyFloat.lt_int params 1000000000 then lit "Small (<1B)"
      else if PyFloat.lt_int params 10000000000 then lit "Medium (1-10B)"
      else if PyFloat.lt_int params 100000000000 then lit "Large (10-100B)"
      else lit "Ultra-Large (100B+)"
  end.

Definition METADATA_PARAMETERS : str := lit "METADATA_PARAMETERS".
Definition MODEL_SIZE_CATEGORY : str := lit "MODEL_SIZE_CATEGORY".

(** Lines 236 to 238: a key not yet in [column_order] is appended. *)
Definition track_key (column_order : list str) (key : str) : list str :=
  if bool_decide (key ∈ column_order) then column_order
  else column_order ++ [key].

Definition track_columns (column_order : list str) (record : dict) : list str :=
  fold_left track_key (dict_keys record) column_order.

(** One turn of the loop over the files, on [(records, column_order)]. *)
Definition load_file (st : list dict * list str) (file : str * str)
  : list dict * list str :=
  let '(records, column_order) := st in
  match parse_file file.1 file.2 with
  | None | Some [] => (records, column_order)
  | Some record => (records ++ [record], track_columns column_order record)
  end.

Definition load_files (files : list (str * str)) : list dict * list str :=
  fold_left load_file files ([], [lit "file"]).

(** [df[key]] on the frame of the records: [None] is the KeyError of a
    column that no record has. *)
Definition frame_column (key : str) (records : list dict) : option (list cell) :=
  if existsb (fun r => bool_decide (is_Some (dict_get r key))) records then
    Some (map (fun r => from_option CStr CNaN (dict_get r key)) records)
  else None.

(** [column.apply(parse_parameters)]: when some result is a float the
    series is a float series, where an absent result is NaN; when no result
    is a float the absent results stay as they are. *)
Definition apply_parse_parameters (column : list cell) : list (option PyFloat.float) :=
  let results := map (fun c => parse_parameters (Some c)) column in
  if existsb (fun r => bool_decide (is_Some r)) results then
    map (fun r => Some (default PyFloat.NaN r)) results
  else results.

(** [list.index] and [list.insert]. *)
Fixpoint index_of (key : str) (l : list str) : option nat :=
  match l with
  | [] => None
  | k :: l' => if bool_decide (k = key) then Some 0%nat else S <$> index_of key l'
  end.

Definition list_insert_at (i : nat) (x : str) (l : list str) : list str :=
  firstn i l ++ x :: skipn i l.

(** Lines 268 to 271, on [(column_order, insert_at)]. *)
Definition insert_derived_step (st : list str * nat) (col : str) : list str * nat :=
  let '(column_order, insert_at) := st in
  if bool_decide (col ∈ column_order) then (column_order, insert_at)
  else (list_insert_at insert_at col column_order, S insert_at).

(** Lines 260 to 265: [insert_at]. *)
Definition insert_position (column_order : list str) : nat :=
  match index_of METADATA_PARAMETERS column_order with
  | Some i => (i + 1)%nat
  | None => length column_order
  end.

Definition insert_derived (column_order : list str) : list str :=
  (fold_left insert_derived_step [MODEL_SIZE_CATEGORY]
             (column_order, insert_position column_order)).1.

(** A row of the frame with the two temporary sort columns. *)
Record row := {
  row_record : dict;
  row_params : option PyFloat.float;   (* _params_sort *)
  row_category : str                   (* MODEL_SIZE_CATEGORY *)
}.

Definition bucket_order (category : str) : option nat :=
  if bool_decide (category = lit "Small (<1B)") then Some 0%nat
  else if bool_decide (category = lit "Medium (1-10B)") then Some 1%nat
  else if bool_decide (category = lit "Large (10-100B)") then Some 2%nat
  else if bool_decide (category = lit "Ultra-Large (100B+)") then Some 3%nat
  else if bool_decide (category = lit "Unknown") then Some 4%nat
  else None.

(** [_bucket_order]: [map(bucket_order).fillna(4)]. *)
Definition row_bucket (r : row) : nat := default 4%nat (bucket_order (row_category r)).

(** A sort key that is missing: [None] or NaN. *)
Definition params_missing (p : option PyFloat.float) : bool :=
  match p with
  | None | Some PyFloat.NaN => true
  | Some _ => false
  end.

(** The order of [sort_values] on one numeric column, ascending, missing
    values last. *)
Definition params_leb (p q : option PyFloat.float) : bool :=
  match p, q with
  | _, (None | Some PyFloat.NaN) => true
  | (None | Some PyFloat.NaN), Some _ => false
  | Some (PyFloat.Inf true), Some _ => true
  | Some _, Some (PyFloat.Inf false) => true
  | Some (PyFloat.Inf false), Some _ => false
  | Some _, Some (PyFloat.Inf true) => false
  | Some (PyFloat.Finite x), Some (PyFloat.Finite y) => negb (PyFloat.Qltb y x)
  end.

Definition row_leb (a b : row) : bool :=
  (row_bucket a <? row_bucket b)%nat
  || ((row_bucket a =? row_bucket b)%nat && params_leb (row_params a) (row_params b)).

(** [sort_values] by the two columns: a stable sort. *)
Fixpoint insert_row (x : row) (l : list row) : list row :=
  match l with
  | [] => [x]
  | y :: l' => if row_leb x y then x :: l else y :: insert_row x l'
  end.

Definition sort_values (rows : list row) : list row :=
  fold_right insert_row [] rows.

Definition make_rows (records : list dict) (params_raw : list (option PyFloat.float))
  : list row :=
  map (fun rp => {| row_record := rp.1; row_params := rp.2;
                    row_category := size_category rp.2 |})
      (combine records params_raw).

(** The cells of a row under [reindex(columns=column_order)]. *)
Definition render_row (column_order : list str) (r : row) : list cell :=
  map (fun col =>
         if bool_decide (col = MODEL_SIZE_CATEGORY) then CStr (row_category r)
         else from_option CStr CNaN (dict_get (row_record r) col))
      column_order.

Inductive outcome :=
  | NoData                                   (* "No data to write." *)
  | KeyError (key : str)                     (* the run fails *)
  | Written (columns : list str) (rows : list row).

(** [main], on the [(name, text)] of the [.txt] files in sorted order; the
    frame handed to [to_csv] is [Written]. *)
Definition main (files : list (str * str)) : outcome :=
  let '(records, column_order) := load_files files in
  match records with
  | [] => NoData
  | _ =>
      match frame_column METADATA_PARAMETERS records with
      | None => KeyError METADATA_PARAMETERS
      | Some column =>
          let params_raw := apply_parse_parameters column in
          let column_order := insert_derived column_order in
          Written column_order (sort_values (make_rows records params_raw))
      end
  end.

(** The table written: the header line and one line of cells per row. *)
Definition written_cells (o : outcome) : option (list str * list (list cell)) :=
  match o with
  | Written columns rows => Some (columns, map (render_row columns) rows)
  | _ => None
  end.

(* ================================================================== *)
(** * 6. parse_block on a heap of list objects *)
(* ================================================================== *)

(** Lists are objects: a name holds a reference, and two names can hold the
    same one ([columns = ESTIMATE_COLUMNS], [columns = table_rows[0]]).
    The heap maps a reference to the items of its list; an item is a string
    or a reference to another list. *)
Definition loc := positive.

Inductive val :=
  | VStr (s : str)
  | VRef (l : loc).

Definition heap := gmap loc (list val).

(** A computation on the heap; [None] is an exception. *)
Definition M (A : Type) : Type := heap -> option (A * heap).

Definition ret {A} (a : A) : M A := fun h => Some (a, h).
Definition raise {A} : M A := fun _ => None.
Definition bind {A B} (m : M A) (k : A -> M B) : M B :=
  fun h => match m h with
           | Some (a, h') => k a h'
           | None => None
           end.

Notation "'do' x <- m ; k" := (bind m (fun x => k))
  (at level 10, x name, m at level 100, k at level 200).

(** A list display, comprehension, slice or [+]: a new object. *)
Definition new_list (items : list val) : M loc :=
  fun h => let l := fresh (dom h) in Some (l, <[l := items]> h).

(** Reading the items of a list. *)
Definition read_list (l : loc) : M (list val) :=
  fun h => match h !! l with
           | Some items => Some (items, h)
           | None => None
           end.

Definition as_str (v : val) : M str :=
  match v with VStr s => ret s | VRef _ => raise end.

Definition as_ref (v : val) : M loc :=
  match v with VRef l => ret l | VStr _ => raise end.

Definition of_option {A} (o : option A) : M A :=
  match o with Some a => ret a | None => raise end.

Fixpoint for_each {A B} (f : A -> M B) (l : list A) : M (list B) :=
  match l with
  | [] => ret []
  | a :: l' => do b <- f a; do bs <- for_each f l'; ret (b :: bs)
  end.

Fixpoint keep_if {A} (f : A -> M bool) (l : list A) : M (list A) :=
  match l with
  | [] => ret []
  | a :: l' =>
      do keep <- f a; do rest <- keep_if f l';
      ret (if keep : bool then a :: rest else rest)
  end.

Definition read_strs (l : loc) : M (list str) :=
  do items <- read_list l; for_each as_str items.

(** [parse_block], statement by statement; [estimate_columns] is the object
    the global name [ESTIMATE_COLUMNS] is bound to, [block] the argument. *)
Definition parse_block_heap (estimate_columns block : loc) : M (option str * dict) :=
  (* rows = [line for line in block if line.startswith("|")] *)
  do lines <- read_strs block;
  do rows <- new_list (VStr <$> List.filter (startswith pipe) lines);
  do row_strs <- read_strs rows;
  match row_strs with
  | [] => ret (None, [])
  | _ =>
      (* parsed = [[cell.strip() for cell in ...] for row in rows] *)
      do cell_lists <- for_each (fun r => new_list (VStr <$> row_cells r)) row_strs;
      do parsed <- new_list (VRef <$> cell_lists);
      (* label = parsed[0][0].upper() *)
      do parsed_items <- read_list parsed;
      do first <- of_option (parsed_items !! 0%nat);
      do first <- as_ref first;
      do first_cells <- read_list first;
      do label <- of_option (first_cells !! 0%nat);
      do label <- as_str label;
      let label := upper label in
      (* table_rows = [r for r in parsed[1:] if len(r) > 1] *)
      do tail <- new_list (drop 1 parsed_items);
      do tail_items <- read_list tail;
      do kept <- keep_if (fun v => do r <- as_ref v; do cells <- read_list r;
                                   ret (1 <? length cells)%nat) tail_items;
      do table_rows <- new_list kept;
      do table_items <- read_list table_rows;
      match last table_items with
      | None => ret (Some label, [])
      | Some data_row =>
          (* data_row = table_rows[-1] *)
          do data_row <- as_ref data_row;
          (* columns = ESTIMATE_COLUMNS, or columns = table_rows[0] *)
          do columns <-
            (if bool_decide (label = lit "ESTIMATE") then ret estimate_columns
             else do first <- of_option (table_items !! 0%nat); as_ref first);
          (* columns = [" ".join(col.split()) for col in columns] *)
          do names <- read_strs columns;
          do columns <- new_list (VStr <$> map normalize_column names);
          do column_items <- read_list columns;
          do data_items <- read_list data_row;
          let n := length column_items in
          let m := length data_items in
          do columns <-
            (if (n <? m)%nat then
               new_list (column_items ++ (VStr <$> map extra_name (seq n (m - n))))
             else if (m <? n)%nat then new_list (firstn m column_items)
             else ret columns);
          (* values = dict(zip(columns, data_row)) *)
          do keys <- read_strs columns;
          do cells <- read_strs data_row;
          ret (Some label, dict_of_pairs (combine keys cells))
      end
  end.

End Program.

(* ================================================================== *)
(** * 7. Notions used in the statements *)
(* ================================================================== *)

(** What a cell is to the piece it is trimmed from. *)
Definition trimmed_from (piece cell : str) : Prop :=
  exists lead trail,
    piece = lead ++ cell ++ trail /\
    Forall (fun c => is_space c = true) lead /\
    Forall (fun c => is_space c = true) trail /\
    (forall c rest, cell = c :: rest -> is_space c = false) /\
    (forall c rest, rev cell = c :: rest -> is_space c = false).

(** The row extractor as the specification words it: one delimiter is
    removed at the start and one at the end. *)
Definition strip_one (c : char) (s : str) : str :=
  let s := match s with c' :: rest => if (c' =? c)%N then rest else s | [] => [] end in
  match rev s with
  | c' :: rest => if (c' =? c)%N then rev rest else s
  | [] => []
  end.

Definition row_cells_one (row : str) : list str :=
  map strip (split_on pipe (strip_one pipe row)).

(** The float [f] is a number below the integer [z]; NaN is no number. *)
Definition below (z : Z) (f : PyFloat.float) : Prop :=
  match f with
  | PyFloat.Finite q => (q < inject_Z z)%Q
  | PyFloat.Inf negative => negative = true
  | PyFloat.NaN => False
  end.

(** The float [f] is a number that is at least the integer [z]. *)
Definition at_least (z : Z) (f : PyFloat.float) : Prop :=
  match f with
  | PyFloat.Finite q => (inject_Z z <= q)%Q
  | PyFloat.Inf negative => negative = false
  | PyFloat.NaN => False
  end.

(** The optional decimal fraction of the pattern, for its digits [fd]. *)
Definition fraction (fd : str) : str :=
  match fd with
  | [] => []
  | _ => 46%N :: fd
  end.

(** [text] starts with the pattern: digits [ip], an optional fraction of
    digits [fd], optional whitespace, and the unit letter [u]. *)
Definition leading_magnitude (text ip fd : str) (u : char) : Prop :=
  exists ws rest,
    text = ip ++ fraction fd ++ ws ++ u :: rest /\
    ip <> [] /\
    Forall (fun c => is_digit c = true) ip /\
    Forall (fun c => is_digit c = true) fd /\
    Forall (fun c => is_space c = true) ws /\
    is_unit u = true.

(** K = 10^3, M = 10^6, B = 10^9, in either case of the letter. *)
Definition unit_multiplier (u : char) : Z :=
  if bool_decide (u ∈ lit "Kk") then 10 ^ 3
  else if bool_decide (u ∈ lit "Mm") then 10 ^ 6
  else 10 ^ 9.

(** The upper-case table that leaves every code point from 128 on as it is;
    it plays no part on ASCII text. *)
Definition identity_table : char -> str := fun c => [c].

(** Setting the keys of [pairs] one after the other in [d]. *)
Definition dict_update (d : dict) (pairs : list (str * str)) : dict :=
  fold_left (fun d kv => dict_set d kv.1 kv.2) pairs d.

(** The loop invariant of [split_blocks]: every line kept so far is non-blank, and no block
    closed so far is empty. *)
Definition blocks_clean (st : list (list str) * list str) : Prop :=
  Forall (fun block => block <> [] /\ Forall (fun line => strip line <> []) block) st.1
  /\ Forall (fun line => strip line <> []) st.2.

(** What the run does to the column order: a key of a record is tracked
    (lines 236-238), or the derived column is placed (lines 260-271). *)
Inductive column_order_step : list str -> list str -> Prop :=
  | step_track_key order key :
      column_order_step order (track_key order key)
  | step_insert_derived order :
      column_order_step order (insert_derived order).

(** The column orders the run goes through, from [["file"]] on. *)
Inductive column_order_reachable : list str -> Prop :=
  | reachable_start : column_order_reachable [lit "file"]
  | reachable_step order order' :
      column_order_reachable order -> column_order_step order order' ->
      column_order_reachable order'.


(** A file whose only table is not a METADATA table. *)
Definition file_without_metadata : str * str :=
  (lit "c.txt",
   lit "| T |" ++ [newline] ++ lit "| x | y |" ++ [newline]
   ++ lit "| 1 | 2 |" ++ [newline]).

(** Two files with METADATA tables of 7.5 B and 500 M parameters. *)
Definition file_7500M : str * str :=
  (lit "a.txt",
   lit "| METADATA |" ++ [newline] ++ lit "| PARAMETERS | X |" ++ [newline]
   ++ lit "| 7.5 B | 2 |" ++ [newline]).

Definition file_500M : str * str :=
  (lit "b.txt",
   lit "| METADATA |" ++ [newline] ++ lit "| PARAMETERS | X |" ++ [newline]
   ++ lit "| 500 M | 2 |" ++ [newline]).

(** [x <= y] for two floats that are numbers. *)
Definition float_le (x y : PyFloat.float) : Prop :=
  match x, y with
  | PyFloat.NaN, _ | _, PyFloat.NaN => False
  | PyFloat.Inf true, _ | _, PyFloat.Inf false => True
  | PyFloat.Finite a, PyFloat.Finite b => (a <= b)%Q
  | _, _ => False
  end.

(** The row order of the output: the bucket index first, then the parameter
    count, a missing count after every count. *)
Definition row_before (a b : row) : Prop :=
  (row_bucket a <= row_bucket b)%nat
  /\ (row_bucket a = row_bucket b ->
      (params_missing (row_params a) = true -> params_missing (row_params b) = true)
      /\ (forall x y,
            row_params a = Some x -> row_params b = Some y ->
            x <> PyFloat.NaN -> y <> PyFloat.NaN -> float_le x y)).

(** A computation changes no object that is there when it starts. *)
Definition preserves {A} (m : M A) : Prop :=
  forall (h : heap) a h', m h = Some (a, h') -> h ⊆ h'.

(** From [h], the computation returns a value and a heap that satisfy [Q],
    and changes no object of [h]. *)
Definition returns {A} (m : M A) (h : heap) (Q : A -> heap -> Prop) : Prop :=
  exists a h', m h = Some (a, h') /\ h ⊆ h' /\ Q a h'.

(** The references [ls] hold the lists of strings [xss], one each. *)
Definition point_to (h : heap) (ls : list loc) (xss : list (list str)) : Prop :=
  Forall2 (fun l xs => h !! l = Some (VStr <$> xs)) ls xss.

(** A heap with the list of [ESTIMATE_COLUMNS] at reference 1 and, at
    reference 2, an ESTIMATE block with a data row of three cells. *)
Definition heap_with_estimate_block : heap :=
  <[2%positive := VStr <$> [lit "| estimate |"; lit "| x | y |"; lit "| 1 | 2 | 3 |"]]>
    (<[1%positive := VStr <$> ESTIMATE_COLUMNS]> ∅).

(** A line that [split_blocks] takes as a separator: [line.strip() == ""]. *)
Definition is_blank (line : str) : bool := bool_decide (strip line = []).

(** A word of [s.split()]: not empty, and without whitespace. *)
Definition is_word (w : str) : Prop :=
  w <> [] /\ Forall (fun c => is_space c = false) w.

(** [key] is a key that the block gives to the record of its file: the
    label of the block, an underscore and one of its column names. *)
Definition block_provides (upper_table : char -> str) (block : list str)
    (key : str) : Prop :=
  exists label col,
    (parse_block upper_table block).1 = Some label /\ label <> []
    /\ col ∈ dict_keys (parse_block upper_table block).2
    /\ key = label ++ lit "_" ++ col.

(** The pairs that line 138 to 140 set in the record, for a label and the
    values mapping of a block. *)
Definition prefixed (label : str) (values : dict) : list (str * str) :=
  map (fun kv => (label ++ lit "_" ++ kv.1, kv.2)) values.

(** The records of the files that have content, in the order of the files. *)
Definition file_records (upper_table : char -> str) (files : list (str * str))
  : list dict :=
  omap (fun file => parse_file upper_table file.1 file.2) files.

(** The cell of a record in the column METADATA_PARAMETERS of the frame. *)
Definition parameters_cell (record : dict) : cell :=
  from_option CStr CNaN (dict_get record METADATA_PARAMETERS).

(** Some record of the run has a parameter count that is parsed. *)
Definition some_count_parsed (upper_table : char -> str) (records : list dict)
  : Prop :=
  exists record,
    record ∈ records
    /\ is_Some (parse_parameters upper_table (Some (parameters_cell record))).

(** The bucket index of a parameter count: [_bucket_order] of its row. *)
Definition bucket_of (params : option PyFloat.float) : nat :=
  default 4%nat (bucket_order (size_category params)).

(** A float that is zero, a positive number or plus infinity. *)
Definition float_nonneg (f : PyFloat.float) : Prop :=
  match f with
  | PyFloat.Finite q => (0 <= q)%Q
  | PyFloat.Inf negative => negative = false
  | PyFloat.NaN => False
  end.

(** Two rows that the sort does not tell apart: the same bucket index, and
    the same count or no count either. *)
Definition same_sort_key (a b : row) : bool := row_leb a b && row_leb b a.

(** The trimmed line list as the specification words it: every line with
    the whitespace at its two ends removed. *)
Definition stripped_lines (text : str) : list str := map strip (splitlines text).

(** The mismatch rule as the specification and the comment of line 100 word
    it: the synthetic names are [EXTRA_0], [EXTRA_1], ... *)
Definition reconcile_from_zero (columns : list str) (n : nat) : list str :=
  if (length columns <? n)%nat then
    columns ++ map extra_name (seq 0 (n - length columns))
  else if (n <? length columns)%nat then firstn n columns
  else columns.

(** An ESTIMATE block with a data row of seventeen cells. *)
Definition estimate_block_17 : list str :=
  [lit "| estimate |";
   lit "| 1 | 2 | 3 | 4 | 5 | 6 | 7 | 8 | 9 | 10 | 11 | 12 | 13 | 14 | 15 | 16 | 17 |"].

(** The cells of its data row. *)
Definition estimate_data_17 : list str :=
  map lit ["1"; "2"; "3"; "4"; "5"; "6"; "7"; "8"; "9"; "10"; "11"; "12"; "13";
           "14"; "15"; "16"; "17"]%string.

(** The words of a string, read off the string itself: whitespace, then a
    word that ends where the string ends or whitespace follows, then the
    words of the rest. *)
Inductive words_of : str -> list str -> Prop :=
  | words_of_blank s :
      Forall (fun c => is_space c = true) s -> words_of s []
  | words_of_word ws w rest words :
      Forall (fun c => is_space c = true) ws ->
      is_word w ->
      (forall c tail, rest = c :: tail -> is_space c = true) ->
      words_of rest words ->
      words_of (ws ++ w ++ rest) (w :: words).

(* ================================================================== *)
(** * 8. Facts about the string operations *)
(* ================================================================== *)

Section StringFacts.
Context (p : char -> bool).

Lemma take_drop_while s : take_while p s ++ drop_while p s = s.
Proof. induction s as [|c s IH]; simpl; [done|]. destruct (p c); simpl; [by rewrite IH|done]. Qed.

Lemma take_while_all s : Forall (fun c => p c = true) (take_while p s).
Proof. induction s as [|c s IH]; simpl; [constructor|]. destruct (p c) eqn:E; by constructor. Qed.

Lemma drop_while_head s c rest : drop_while p s = c :: rest -> p c = false.
Proof.
  induction s as [|d s IH]; simpl; [done|]. destruct (p d) eqn:E; [done|].
  intros [= -> _]. done.
Qed.

Lemma drop_while_app_all l s :
  Forall (fun c => p c = true) l -> drop_while p (l ++ s) = drop_while p s.
Proof. induction 1 as [|c l H _ IH]; simpl; [done|]. by rewrite H. Qed.

Lemma take_while_app_all l s :
  Forall (fun c => p c = true) l -> take_while p (l ++ s) = l ++ take_while p s.
Proof. induction 1 as [|c l H _ IH]; simpl; [done|]. by rewrite H, IH. Qed.

Lemma drop_while_stop s : (forall c rest, s = c :: rest -> p c = false) -> drop_while p s = s.
Proof. destruct s as [|c s]; simpl; [done|]. intros H. by rewrite (H c s). Qed.

Lemma take_while_stop s : (forall c rest, s = c :: rest -> p c = false) -> take_while p s = [].
Proof. destruct s as [|c s]; simpl; [done|]. intros H. by rewrite (H c s). Qed.

Lemma drop_while_none s : Forall (fun c => p c = false) s -> drop_while p s = s.
Proof. destruct 1 as [|c s H _]; simpl; [done|]. by rewrite H. Qed.

(** [strip_by p s] is [s] without a prefix and a suffix of characters of
    [p], and it neither starts nor ends with one. *)
Lemma strip_by_split s :
  exists lead trail,
    s = lead ++ strip_by p s ++ trail /\
    Forall (fun c => p c = true) lead /\ Forall (fun c => p c = true) trail /\
    (forall c rest, strip_by p s = c :: rest -> p c = false) /\
    (forall c rest, rev (strip_by p s) = c :: rest -> p c = false) /\
    (forall c rest, s = c :: rest -> p c = true -> lead <> []).
Proof.
  exists (take_while p s), (rev (take_while p (rev (drop_while p s)))).
  unfold strip_by, rstrip_by, lstrip_by.
  set (t := drop_while p s).
  assert (Ht : rev (drop_while p (rev t)) ++ rev (take_while p (rev t)) = t).
  { rewrite <- rev_app_distr, take_drop_while. apply rev_involutive. }
  split_and!.
  - rewrite Ht. symmetry. apply take_drop_while.
  - apply take_while_all.
  - apply Forall_rev, take_while_all.
  - intros c rest Hc.
    assert (Hs : t = c :: rest ++ rev (take_while p (rev t))).
    { rewrite <- Ht at 1. rewrite Hc. done. }
    eapply drop_while_head. exact Hs.
  - intros c rest. rewrite rev_involutive. apply drop_while_head.
  - intros c rest -> Hc. simpl. by rewrite Hc.
Qed.
End StringFacts.

Lemma split_on_nonempty sep s : split_on sep s <> [].
Proof.
  destruct s as [|c s]; simpl; [done|].
  destruct (c =? sep)%N; [done|]. by destruct (split_on sep s).
Qed.

Lemma join_cons sep piece pieces :
  pieces <> [] -> join sep (piece :: pieces) = piece ++ sep ++ join sep pieces.
Proof. by destruct pieces. Qed.

(** Splitting loses nothing: joining the pieces with the separator gives
    the string back. *)
Lemma join_split_on sep s : join [sep] (split_on sep s) = s.
Proof.
  induction s as [|c s IH]; simpl; [done|].
  destruct (N.eqb_spec c sep) as [->|Hne].
  - rewrite join_cons by apply split_on_nonempty. simpl. by rewrite IH.
  - pose proof (split_on_nonempty sep s) as Hne'.
    destruct (split_on sep s) as [|piece pieces]; [done|].
    destruct pieces as [|q pieces]; simpl in *; by rewrite <- IH.
Qed.

Lemma split_on_no_sep sep s : Forall (fun piece => sep ∉ piece) (split_on sep s).
Proof.
  induction s as [|c s IH]; simpl.
  - constructor; [|constructor]. by intros ?%elem_of_nil.
  - destruct (N.eqb_spec c sep) as [->|Hne].
    + constructor; [|done]. by intros ?%elem_of_nil.
    + destruct (split_on sep s) as [|piece pieces].
      * constructor; [|constructor]. intros [?|?%elem_of_nil]%elem_of_cons; congruence.
      * inversion_clear IH as [|? ? Hp Hps]. constructor; [|done].
        intros [?|?]%elem_of_cons; [congruence|done].
Qed.

Lemma split_on_length sep s :
  length (split_on sep s) = S (length (List.filter (N.eqb sep) s)).
Proof.
  induction s as [|c s IH]; simpl; [done|].
  rewrite (N.eqb_sym sep c). destruct (c =? sep)%N; simpl; [by rewrite IH|].
  pose proof (split_on_nonempty sep s). by destruct (split_on sep s).
Qed.

Lemma row_cells_nonempty row : row_cells row <> [].
Proof.
  unfold row_cells. pose proof (split_on_nonempty pipe (strip_chars pipe row)).
  by destruct (split_on pipe (strip_chars pipe row)).
Qed.

Lemma strip_trimmed_from piece : trimmed_from piece (strip piece).
Proof.
  destruct (strip_by_split is_space piece) as (lead & trail & H1 & H2 & H3 & H4 & H5 & _).
  by exists lead, trail.
Qed.

(** C2 (as the code has it): for every candidate line the row extractor
    strips every delimiter at the start and at the end of the line, not one
    of each: the line is a non-empty run of delimiters, a core that neither
    starts nor ends with a delimiter, and a run of delimiters.  The core is
    split on the delimiter (the pieces hold no delimiter, and joined with it
    they give the core back), and each cell is its piece without the
    whitespace around it. *)
Theorem row_cells_strips_all_delimiters (line : str) :
  startswith pipe line = true ->
  exists lead core trail pieces,
    line = lead ++ core ++ trail /\
    lead <> [] /\ Forall (eq pipe) lead /\ Forall (eq pipe) trail /\
    startswith pipe core = false /\ startswith pipe (rev core) = false /\
    join [pipe] pieces = core /\ Forall (fun piece => pipe ∉ piece) pieces /\
    length pieces = S (length (List.filter (N.eqb pipe) core)) /\
    row_cells line = map strip pieces /\
    Forall2 trimmed_from pieces (row_cells line).
Proof.
  intros Hstart.
  destruct (strip_by_split (N.eqb pipe) line) as (lead & trail & H1 & H2 & H3 & H4 & H5 & H6).
  fold (strip_chars pipe line) in *. set (core := strip_chars pipe line) in *.
  assert (Hnot : forall s, (forall c rest, s = c :: rest -> (pipe =? c)%N = false) ->
                           startswith pipe s = false).
  { intros [|c s] Hs; simpl; [done|]. rewrite N.eqb_sym. by apply (Hs c s). }
  exists lead, core, trail, (split_on pipe core). split_and!.
  - done.
  - destruct line as [|c rest]; [done|]. simpl in Hstart.
    apply (H6 c rest eq_refl). by rewrite N.eqb_sym.
  - eapply Forall_impl; [exact H2|]. intros c Hc. by apply N.eqb_eq in Hc.
  - eapply Forall_impl; [exact H3|]. intros c Hc. by apply N.eqb_eq in Hc.
  - by apply Hnot.
  - by apply Hnot.
  - apply join_split_on.
  - apply split_on_no_sep.
  - apply split_on_length.
  - done.
  - unfold row_cells. fold core. induction (split_on pipe core); constructor; [|done].
    apply strip_trimmed_from.
Qed.

(** The theorem at the line ["| a | b |"]. *)
Lemma row_cells_strips_all_delimiters_witness :
  startswith pipe (lit "| a | b |") = true /\
  exists lead core trail pieces,
    lit "| a | b |" = lead ++ core ++ trail /\
    lead <> [] /\ Forall (eq pipe) lead /\ Forall (eq pipe) trail /\
    startswith pipe core = false /\ startswith pipe (rev core) = false /\
    join [pipe] pieces = core /\ Forall (fun piece => pipe ∉ piece) pieces /\
    length pieces = S (length (List.filter (N.eqb pipe) core)) /\
    row_cells (lit "| a | b |") = map strip pieces /\
    Forall2 trimmed_from pieces (row_cells (lit "| a | b |")).
Proof.
  split; [reflexivity|].
  apply (row_cells_strips_all_delimiters (lit "| a | b |")). reflexivity.
Defined.

(** C2 fails on the code at the line ["||a||"]: the cells are just ["a"],
    where stripping one delimiter at each end gives an empty first and last
    cell. *)
Lemma row_cells_strips_more_than_one :
  startswith pipe (lit "||a||") = true /\
  row_cells (lit "||a||") = [lit "a"] /\
  row_cells_one (lit "||a||") = [lit ""; lit "a"; lit ""] /\
  row_cells (lit "|a|") = [lit "a"] /\
  row_cells (lit "||a||") <> row_cells_one (lit "||a||").
Proof. split_and!; try reflexivity. intros [=]. Qed.

(* ================================================================== *)
(** * 9. The block splitter *)
(* ================================================================== *)

Lemma rstrip_by_none p s : Forall (fun c => p c = false) s -> rstrip_by p s = s.
Proof.
  intros H. unfold rstrip_by. rewrite drop_while_none; [apply rev_involutive|].
  by apply Forall_rev.
Qed.

Lemma splitlines_nonempty c s : splitlines (c :: s) <> [].
Proof.
  simpl. destruct (is_linebreak c); [done|]. by destruct (splitlines s).
Qed.

(** No line of [splitlines] holds a line boundary. *)
Lemma splitlines_no_linebreak s :
  Forall (Forall (fun c => is_linebreak c = false)) (splitlines s).
Proof.
  remember (length s) as n eqn:Hn. revert s Hn.
  induction n as [n IH] using lt_wf_ind. intros [|c s] Hn; simpl; [constructor|].
  simpl in Hn. destruct (is_linebreak c) eqn:Hc.
  - constructor; [constructor|]. destruct s as [|c' s']; [constructor|].
    simpl in Hn. destruct ((c =? carriage_return)%N && (c' =? newline)%N).
    + apply (IH (length s')); [lia|done].
    + apply (IH (length (c' :: s'))); simpl; [lia|done].
  - pose proof (IH (length s) ltac:(lia) s eq_refl) as Hs.
    destruct (splitlines s) as [|line lines]; [by repeat constructor|].
    inversion_clear Hs. constructor; [by constructor|done].
Qed.

Lemma newline_is_linebreak c : (newline =? c)%N = true -> is_linebreak c = true.
Proof. intros <-%N.eqb_eq. reflexivity. Qed.

(** On a line of [splitlines], [rstrip("\n")] removes nothing. *)
Lemma rstrip_newline_line line :
  Forall (fun c => is_linebreak c = false) line -> rstrip_chars newline line = line.
Proof.
  intros H. apply rstrip_by_none. eapply Forall_impl; [exact H|].
  intros c Hc. destruct (newline =? c)%N eqn:E; [|done].
  apply newline_is_linebreak in E. congruence.
Qed.

Lemma rstrip_newline_lines lines :
  Forall (Forall (fun c => is_linebreak c = false)) lines ->
  map (rstrip_chars newline) lines = lines.
Proof.
  induction 1 as [|line lines Hl _ IH]; simpl; [done|].
  by rewrite rstrip_newline_line, IH.
Qed.

Lemma split_blocks_step_nonblank blocks current line :
  strip line <> [] ->
  split_blocks_step (blocks, current) line
  = (blocks, current ++ [rstrip_chars newline line]).
Proof. intros H. unfold split_blocks_step. by rewrite bool_decide_eq_false_2. Qed.

Lemma split_blocks_step_blank blocks line :
  strip line = [] -> split_blocks_step (blocks, []) line = (blocks, []).
Proof. intros H. unfold split_blocks_step. by rewrite bool_decide_eq_true_2. Qed.

Lemma split_blocks_loop_nonblank lines blocks current :
  Forall (fun line => strip line <> []) lines ->
  fold_left split_blocks_step lines (blocks, current)
  = (blocks, current ++ map (rstrip_chars newline) lines).
Proof.
  intros H. revert current.
  induction H as [|line lines Hl _ IH]; intros current; cbn [fold_left map].
  - by rewrite app_nil_r.
  - rewrite split_blocks_step_nonblank by done. rewrite IH, <- app_assoc. done.
Qed.

Lemma split_blocks_loop_blank lines blocks :
  Forall (fun line => strip line = []) lines ->
  fold_left split_blocks_step lines (blocks, []) = (blocks, []).
Proof.
  induction 1 as [|line lines Hl _ IH]; cbn [fold_left]; [done|].
  by rewrite split_blocks_step_blank.
Qed.

Lemma split_blocks_step_clean st line :
  Forall (fun c => is_linebreak c = false) line ->
  blocks_clean st -> blocks_clean (split_blocks_step st line).
Proof.
  destruct st as [blocks current]. intros Hline [Hb Hc]. unfold split_blocks_step.
  simpl in Hb, Hc. case_bool_decide as Hblank.
  - destruct current as [|l current]; [done|]. split; simpl; [|constructor].
    apply Forall_app. split; [done|]. constructor; [done|constructor].
  - split; simpl; [done|]. apply Forall_app. split; [done|].
    constructor; [|constructor]. by rewrite rstrip_newline_line.
Qed.

Lemma split_blocks_loop_clean lines st :
  Forall (Forall (fun c => is_linebreak c = false)) lines ->
  blocks_clean st -> blocks_clean (fold_left split_blocks_step lines st).
Proof.
  intros H. revert st.
  induction H as [|line lines Hl _ IH]; intros st Hst; cbn [fold_left]; [done|].
  apply IH. by apply split_blocks_step_clean.
Qed.

Lemma split_blocks_clean text :
  Forall (fun block => block <> [] /\ Forall (fun line => strip line <> []) block)
         (split_blocks text).
Proof.
  unfold split_blocks.
  pose proof (split_blocks_loop_clean (splitlines text) ([], [])
                (splitlines_no_linebreak text)) as H.
  destruct (fold_left split_blocks_step (splitlines text) ([], [])) as [blocks current].
  destruct H as [Hb Hc]; [by split; constructor|]. simpl in *.
  destruct current as [|l current]; [done|].
  apply Forall_app. split; [done|]. constructor; [done|constructor].
Qed.

(** C6 (as the code has it): a text with content and no blank line gives
    exactly one block, the list of the lines of the text as they are: a line
    is without its terminator (it holds no line boundary) and is not trimmed
    otherwise, the whitespace at its two ends is kept; a text of blank lines
    only gives no block; and no block of any text holds a blank line.  A
    line is blank when [line.strip()] is empty. *)
Theorem split_blocks_spec (text : str) :
  (text <> [] ->
   Forall (fun line => strip line <> []) (splitlines text) ->
   split_blocks text = [splitlines text]
   /\ Forall (Forall (fun c => is_linebreak c = false)) (splitlines text))
  /\ (Forall (fun line => strip line = []) (splitlines text) ->
      split_blocks text = [])
  /\ (forall block line,
        block ∈ split_blocks text -> line ∈ block -> strip line <> []).
Proof.
  split_and!.
  - intros Htext Hlines. split; [|apply splitlines_no_linebreak].
    unfold split_blocks. rewrite split_blocks_loop_nonblank by done. simpl.
    rewrite (rstrip_newline_lines _ (splitlines_no_linebreak text)).
    destruct text as [|c text]; [done|].
    pose proof (splitlines_nonempty c text) as Hne.
    by destruct (splitlines (c :: text)).
  - intros Hlines. unfold split_blocks. by rewrite split_blocks_loop_blank.
  - intros block line Hblock Hline.
    pose proof (split_blocks_clean text) as H.
    rewrite Forall_forall in H. destruct (H block Hblock) as [_ Hb].
    rewrite Forall_forall in Hb. by apply Hb.
Qed.

(** The theorem at a two-line text, at a text of two blank lines, and at a
    text of two blocks. *)
Lemma split_blocks_spec_witness :
  split_blocks (lit "| T |" ++ [newline] ++ lit "  | a | b |  ")
  = [[lit "| T |"; lit "  | a | b |  "]]
  /\ split_blocks (lit "  " ++ [newline] ++ [newline]) = []
  /\ strip (lit "b") <> [].
Proof.
  split_and!.
  - apply (proj1 (split_blocks_spec (lit "| T |" ++ [newline] ++ lit "  | a | b |  "))).
    + discriminate.
    + repeat constructor; discriminate.
  - apply (proj1 (proj2 (split_blocks_spec (lit "  " ++ [newline] ++ [newline])))).
    repeat constructor.
  - apply (proj2 (proj2 (split_blocks_spec (lit "a" ++ [newline; newline] ++ lit "b")))
             [lit "b"] (lit "b")).
    + apply list_elem_of_In. vm_compute. auto.
    + apply list_elem_of_here.
Defined.

(** C6 fails on the code at a text whose second line has spaces at its two
    ends: the text has content and no blank line, and its one block holds
    the line with its spaces, where the trimmed line list holds it without
    them. *)
Lemma split_blocks_keeps_line_whitespace :
  let text := lit "| T |" ++ [newline] ++ lit "  | a | b |  " in
  text <> []
  /\ Forall (fun line => strip line <> []) (splitlines text)
  /\ split_blocks text = [[lit "| T |"; lit "  | a | b |  "]]
  /\ stripped_lines text = [lit "| T |"; lit "| a | b |"]
  /\ split_blocks text <> [stripped_lines text].
Proof.
  split_and!; try reflexivity; try discriminate.
  repeat constructor; discriminate.
Qed.

(* ================================================================== *)
(** * 10. The value normaliser *)
(* ================================================================== *)

Lemma lt_int_below f z : PyFloat.lt_int f z = true <-> below z f.
Proof.
  destruct f as [q|s|]; simpl; [|done|done].
  unfold PyFloat.Qltb, Qlt. simpl. by rewrite Z.ltb_lt.
Qed.

Lemma lt_int_at_least f z : at_least z f -> PyFloat.lt_int f z = false.
Proof.
  destruct f as [q|s|]; simpl; [|done|done].
  unfold PyFloat.Qltb, Qle. simpl. intros H. apply Z.ltb_ge. lia.
Qed.

(** C8: [size_category] on an absent count and on the four ranges of a
    count; 10^9 itself is Medium. *)
Theorem size_category_spec :
  size_category None = lit "Unknown"
  /\ (forall p, below (10 ^ 9) p -> size_category (Some p) = lit "Small (<1B)")
  /\ (forall p, at_least (10 ^ 9) p -> below (10 ^ 10) p ->
                size_category (Some p) = lit "Medium (1-10B)")
  /\ (forall p, at_least (10 ^ 10) p -> below (10 ^ 11) p ->
                size_category (Some p) = lit "Large (10-100B)")
  /\ (forall p, at_least (10 ^ 11) p ->
                size_category (Some p) = lit "Ultra-Large (100B+)")
  /\ size_category (Some (PyFloat.of_Z (10 ^ 9))) = lit "Medium (1-10B)"
  /\ size_category (Some (PyFloat.of_Z 999999999)) = lit "Small (<1B)".
Proof.
  split_and!; try reflexivity.
  - intros p H. unfold size_category.
    change 1000000000%Z with (10 ^ 9)%Z. by rewrite (proj2 (lt_int_below _ _) H).
  - intros p H1 H2. unfold size_category.
    change 1000000000%Z with (10 ^ 9)%Z. change 10000000000%Z with (10 ^ 10)%Z.
    by rewrite (lt_int_at_least _ _ H1), (proj2 (lt_int_below _ _) H2).
  - intros p H1 H2. unfold size_category.
    change 1000000000%Z with (10 ^ 9)%Z. change 10000000000%Z with (10 ^ 10)%Z.
    change 100000000000%Z with (10 ^ 11)%Z.
    assert (H0 : at_least (10 ^ 9) p).
    { destruct p as [q|s|]; simpl in *; [|done|done].
      eapply Qle_trans; [|exact H1]. unfold Qle. simpl. lia. }
    by rewrite (lt_int_at_least _ _ H0), (lt_int_at_least _ _ H1),
               (proj2 (lt_int_below _ _) H2).
  - intros p H2. unfold size_category.
    change 1000000000%Z with (10 ^ 9)%Z. change 10000000000%Z with (10 ^ 10)%Z.
    change 100000000000%Z with (10 ^ 11)%Z.
    assert (H1 : at_least (10 ^ 10) p).
    { destruct p as [q|s|]; simpl in *; [|done|done].
      eapply Qle_trans; [|exact H2]. unfold Qle. simpl. lia. }
    assert (H0 : at_least (10 ^ 9) p).
    { destruct p as [q|s|]; simpl in *; [|done|done].
      eapply Qle_trans; [|exact H1]. unfold Qle. simpl. lia. }
    by rewrite (lt_int_at_least _ _ H0), (lt_int_at_least _ _ H1),
               (lt_int_at_least _ _ H2).
Qed.

(** The theorem at 999999999.5, 7.5e9, 1.2e10, infinity. *)
Lemma size_category_spec_witness :
  size_category (Some (PyFloat.Finite (1999999999 # 2))) = lit "Small (<1B)"
  /\ size_category (Some (PyFloat.Finite 7500000000)) = lit "Medium (1-10B)"
  /\ size_category (Some (PyFloat.Finite 12000000000)) = lit "Large (10-100B)"
  /\ size_category (Some (PyFloat.Inf false)) = lit "Ultra-Large (100B+)".
Proof.
  destruct size_category_spec as (_ & H1 & H2 & H3 & H4 & _).
  split_and!.
  - apply H1. reflexivity.
  - apply H2; [discriminate|reflexivity].
  - apply H3; [discriminate|reflexivity].
  - apply H4. reflexivity.
Defined.

Lemma is_unit_cases u :
  is_unit u = true -> u ∈ [75; 77; 66; 107; 109; 98]%N.
Proof. unfold is_unit. intros H. by apply bool_decide_eq_true_1 in H. Qed.

Lemma space_not_digit c : is_space c = true -> is_digit c = false.
Proof.
  unfold is_space, is_digit. intros H. apply not_true_is_false. intros Hd.
  rewrite andb_true_iff, !N.leb_le in Hd.
  rewrite !orb_true_iff, !andb_true_iff, !N.leb_le, !N.eqb_eq in H. lia.
Qed.

Lemma space_not_point c : is_space c = true -> c <> 46%N.
Proof. intros H ->. discriminate. Qed.

Lemma unit_facts u :
  is_unit u = true -> is_digit u = false /\ is_space u = false /\ u <> 46%N.
Proof.
  intros H%is_unit_cases. set_unfold in H.
  destruct H as [->|[->|[->|[->|[->|[->|[]]]]]]]; by split_and!.
Qed.

(** The head of what follows the amount is no digit and no point. *)
Lemma after_amount_head ws u rest :
  Forall (fun c => is_space c = true) ws -> is_unit u = true ->
  forall c tail, ws ++ u :: rest = c :: tail -> is_digit c = false /\ c <> 46%N.
Proof.
  intros Hws Hu c tail. destruct ws as [|w ws]; simpl; intros [= <- <-].
  - by destruct (unit_facts _ Hu) as (? & _ & ?).
  - inversion_clear Hws. split; [by apply space_not_digit|by apply space_not_point].
Qed.

Lemma match_parameters_complete text ip fd u :
  leading_magnitude text ip fd u -> match_parameters text = Some (ip, fd, u).
Proof.
  intros (ws & rest & -> & Hip & Hipd & Hfdd & Hws & Hu).
  pose proof (after_amount_head ws u rest Hws Hu) as Hhead.
  assert (Htail : drop_while is_space (ws ++ u :: rest) = u :: rest).
  { rewrite drop_while_app_all by done. simpl.
    by destruct (unit_facts _ Hu) as (_ & -> & _). }
  unfold match_parameters.
  assert (Hstop : forall c tail, fraction fd ++ ws ++ u :: rest = c :: tail ->
                                 is_digit c = false).
  { intros c tail. destruct fd as [|d fd]; simpl.
    - intros H. by destruct (Hhead _ _ H).
    - by intros [= <- _]. }
  rewrite take_while_app_all, drop_while_app_all by done.
  rewrite (take_while_stop _ _ Hstop), (drop_while_stop _ _ Hstop), app_nil_r.
  destruct ip as [|i ip]; [done|]. clear Hstop.
  destruct fd as [|d fd]; simpl fraction.
  - simpl app at 1.
    destruct (ws ++ u :: rest) as [|c tail] eqn:Hrest; [by destruct ws|].
    destruct (Hhead c tail eq_refl) as [_ Hc].
    assert (Hgoal : match drop_while is_space (c :: tail) with
                    | [] => None
                    | u0 :: _ => if is_unit u0 then Some (i :: ip, [], u0) else None
                    end = Some (i :: ip, @nil char, u)).
    { rewrite Htail. by rewrite Hu. }
    destruct c as [|p]; [done|].
    repeat (destruct p as [p|p|]; try exact Hgoal); done.
  - assert (Hstop' : forall c tail, ws ++ u :: rest = c :: tail -> is_digit c = false).
    { intros c tail H. by destruct (Hhead _ _ H). }
    remember (d :: fd) as fd' eqn:Hfd'.
    cbn [app]. rewrite take_while_app_all, drop_while_app_all by done.
    rewrite (take_while_stop _ _ Hstop'), (drop_while_stop _ _ Hstop'), app_nil_r.
    subst fd'. rewrite Htail, Hu. done.
Qed.

Lemma match_parameters_sound text ip fd u :
  match_parameters text = Some (ip, fd, u) -> leading_magnitude text ip fd u.
Proof.
  unfold match_parameters.
  pose proof (take_drop_while is_digit text) as Hsplit.
  pose proof (take_while_all is_digit text) as Hdig.
  destruct (take_while is_digit text) as [|i ip0] eqn:Hip; [done|].
  remember (drop_while is_digit text) as after_ip eqn:Hafter_ip.
  assert (Hcases :
    exists fd0 after_amount,
      (match after_ip with
       | 46%N :: rest =>
           match take_while is_digit rest with
           | [] => ([], after_ip)
           | fd => (fd, drop_while is_digit rest)
           end
       | _ => ([], after_ip)
       end) = (fd0, after_amount)
      /\ after_ip = fraction fd0 ++ after_amount
      /\ Forall (fun c => is_digit c = true) fd0).
  { destruct after_ip as [|c rest] eqn:Ha.
    - exists [], []. split_and!; [done|done|constructor].
    - assert (Hplain : exists fd0 after_amount : str,
                ((@nil char, c :: rest) = (fd0, after_amount))
                /\ c :: rest = fraction fd0 ++ after_amount
                /\ Forall (fun c => is_digit c = true) fd0).
      { exists [], (c :: rest). split_and!; [done|done|constructor]. }
      destruct c as [|p]; [exact Hplain|].
      repeat (destruct p as [p|p|]; try exact Hplain).
      pose proof (take_drop_while is_digit rest) as Hs2.
      pose proof (take_while_all is_digit rest) as Hd2.
      destruct (take_while is_digit rest) as [|d fd0] eqn:Hfd.
      + exists [], (46%N :: rest). split_and!; [done|done|constructor].
      + exists (d :: fd0), (drop_while is_digit rest). split_and!; [done| |done].
        rewrite <- Hs2 at 1. done. }
  destruct Hcases as (fd0 & after_amount & -> & Hafter & Hfd0).
  pose proof (take_drop_while is_space after_amount) as Hs3.
  pose proof (take_while_all is_space after_amount) as Hd3.
  destruct (drop_while is_space after_amount) as [|u0 rest] eqn:Hu0; [done|].
  destruct (is_unit u0) eqn:Hunit; [|done].
  intros [= <- <- <-].
  exists (take_while is_space after_amount), rest. split_and!; try done.
  rewrite Hs3, <- Hafter. done.
Qed.

Lemma upper_unit upper_table u :
  is_unit u = true ->
  multiplier_of (upper upper_table [u]) = Some (unit_multiplier u).
Proof.
  intros H%is_unit_cases. set_unfold in H.
  destruct H as [->|[->|[->|[->|[->|[->|[]]]]]]]; reflexivity.
Qed.

Lemma parse_parameters_match upper_table s :
  strip s <> [] ->
  parse_parameters upper_table (Some (CStr s))
  = match match_parameters (strip s) with
    | None => None
    | Some (ip, fd, u) =>
        match multiplier_of (upper upper_table [u]) with
        | None => None
        | Some multiplier =>
            Some (PyFloat.mul (PyFloat.of_decimal ip fd) (PyFloat.of_Z multiplier))
        end
    end.
Proof. intros H. unfold parse_parameters. simpl. by destruct (strip s). Qed.

(** C5 (as the code has it): [parse_parameters] is absent for an absent or
    blank input; for a string, the pattern is looked for at the start of the
    string with the whitespace at its two ends removed: when that starts
    with digits [ip], an optional fraction of digits [fd], optional
    whitespace and a unit letter, the result is the float product of the
    float nearest to the decimal amount and 10^3, 10^6 or 10^9; otherwise it
    is absent. *)
Theorem parse_parameters_spec (upper_table : char -> str) :
  parse_parameters upper_table None = None
  /\ (forall s, strip s = [] -> parse_parameters upper_table (Some (CStr s)) = None)
  /\ (forall s ip fd u,
        leading_magnitude (strip s) ip fd u ->
        parse_parameters upper_table (Some (CStr s))
        = Some (PyFloat.mul (PyFloat.of_decimal ip fd)
                            (PyFloat.of_Z (unit_multiplier u))))
  /\ (forall s,
        (forall ip fd u, ~ leading_magnitude (strip s) ip fd u) ->
        parse_parameters upper_table (Some (CStr s)) = None)
  /\ parse_parameters upper_table (Some (CStr (lit "22.57 M")))
     = Some (PyFloat.Finite 22570000)
  /\ parse_parameters upper_table (Some (CStr (lit "1.78B")))
     = Some (PyFloat.Finite 1780000000)
  /\ parse_parameters upper_table (Some (CStr (lit "abc"))) = None.
Proof.
  split_and!; try reflexivity.
  - intros s Hs. unfold parse_parameters. simpl. by rewrite Hs.
  - intros s ip fd u H.
    assert (Hne : strip s <> []).
    { destruct H as (ws & rest & -> & Hip & _). by destruct ip. }
    rewrite parse_parameters_match by done.
    rewrite (match_parameters_complete _ _ _ _ H).
    destruct H as (_ & _ & _ & _ & _ & _ & _ & Hu). by rewrite upper_unit.
  - intros s H. destruct (strip s) as [|c t] eqn:Hs.
    + unfold parse_parameters. simpl. by rewrite Hs.
    + rewrite parse_parameters_match by (by rewrite Hs). rewrite Hs in *.
      destruct (match_parameters (c :: t)) as [[[ip fd] u]|] eqn:Hm; [|done].
      by apply match_parameters_sound, H in Hm.
Qed.

(** The theorem at ["  500 k params"] and at ["7.B"]. *)
Lemma parse_parameters_spec_witness :
  parse_parameters identity_table (Some (CStr (lit "  500 k params")))
  = Some (PyFloat.mul (PyFloat.of_decimal (lit "500") []) (PyFloat.of_Z (10 ^ 3)))
  /\ parse_parameters identity_table (Some (CStr (lit "   "))) = None.
Proof.
  destruct (parse_parameters_spec identity_table) as (_ & H1 & H2 & _).
  split.
  - apply (H2 (lit "  500 k params") (lit "500") [] 107%N).
    exists [32%N], (lit " params"). split_and!; try reflexivity; try discriminate.
    + repeat constructor.
    + constructor.
    + repeat constructor.
  - apply H1. reflexivity.
Defined.

(** C5 fails on the code at [" 5 K"]: the string starts with a space and
    not with the pattern, and the result is 5000.0, not absent. *)
Lemma parse_parameters_trims_first :
  (forall ip fd u, ~ leading_magnitude (lit " 5 K") ip fd u)
  /\ parse_parameters identity_table (Some (CStr (lit " 5 K")))
     = Some (PyFloat.Finite 5000).
Proof.
  split; [|reflexivity].
  intros ip fd u (ws & rest & Heq & Hip & Hd & _).
  destruct ip as [|c ip]; [done|]. inversion_clear Hd as [|? ? Hc _].
  simpl in Heq. injection Heq as <- _. discriminate.
Qed.

(* ================================================================== *)
(** * 11. Dictionaries *)
(* ================================================================== *)

Lemma dict_keys_set d key value :
  dict_keys (dict_set d key value)
  = if bool_decide (key ∈ dict_keys d) then dict_keys d else dict_keys d ++ [key].
Proof.
  induction d as [|[k v] d IH]; cbn [dict_set dict_keys map fst]; [done|].
  fold (dict_keys (dict_set d key value)) in *. fold (dict_keys d) in *.
  destruct (decide (k = key)) as [->|Hk].
  - rewrite bool_decide_eq_true_2 by done.
    by rewrite bool_decide_eq_true_2 by apply list_elem_of_here.
  - rewrite (bool_decide_eq_false_2 (k = key)) by done.
    cbn [map fst]. fold (dict_keys (dict_set d key value)). rewrite IH.
    destruct (decide (key ∈ dict_keys d)) as [Hin|Hin].
    + rewrite !bool_decide_eq_true_2; [done|by apply list_elem_of_further|done].
    + rewrite !bool_decide_eq_false_2; [done| |done].
      intros [?|?]%elem_of_cons; congruence.
Qed.

Lemma dict_get_set d key value key' :
  dict_get (dict_set d key value) key'
  = if bool_decide (key = key') then Some value else dict_get d key'.
Proof.
  induction d as [|[k v] d IH]; cbn [dict_set dict_get]; [done|].
  destruct (decide (k = key)) as [->|Hk].
  - rewrite (bool_decide_eq_true_2 (key = key)) by done. cbn [dict_get].
    by destruct (bool_decide (key = key')).
  - rewrite (bool_decide_eq_false_2 (k = key)) by done. cbn [dict_get].
    rewrite IH. destruct (decide (k = key')) as [->|Hk'].
    + rewrite (bool_decide_eq_true_2 (key' = key')) by done.
      by rewrite bool_decide_eq_false_2 by congruence.
    + by rewrite (bool_decide_eq_false_2 (k = key')) by done.
Qed.

Lemma dict_get_None d key : dict_get d key = None <-> key ∉ dict_keys d.
Proof.
  induction d as [|[k v] d IH]; cbn [dict_get dict_keys map fst].
  - split; [intros _ ?%elem_of_nil; done|done].
  - fold (dict_keys d). destruct (decide (k = key)) as [->|Hk].
    + rewrite bool_decide_eq_true_2 by done.
      split; [done|]. intros H. destruct H. apply list_elem_of_here.
    + rewrite bool_decide_eq_false_2 by done.
      rewrite IH, not_elem_of_cons.
      split; [intros ?; split; [congruence|done]|by intros [_ ?]].
Qed.

Lemma dict_update_snoc d pairs kv :
  dict_update d (pairs ++ [kv]) = dict_set (dict_update d pairs) kv.1 kv.2.
Proof. unfold dict_update. by rewrite fold_left_app. Qed.

Lemma dict_update_keys_NoDup d pairs :
  NoDup (dict_keys d) -> NoDup (dict_keys (dict_update d pairs)).
Proof.
  revert d. induction pairs as [|[k v] pairs IH]; intros d Hd; simpl; [done|].
  apply IH. rewrite dict_keys_set. case_bool_decide; [done|].
  apply NoDup_app. split_and!; [done| |apply NoDup_singleton].
  intros x Hx ->%list_elem_of_singleton. done.
Qed.

Lemma dict_update_keys d pairs key :
  key ∈ dict_keys (dict_update d pairs) <-> key ∈ dict_keys d \/ key ∈ pairs.*1.
Proof.
  revert d. induction pairs as [|[k v] pairs IH]; intros d; simpl.
  - rewrite elem_of_nil. tauto.
  - rewrite IH, dict_keys_set, elem_of_cons. case_bool_decide as Hin.
    + split; [tauto|]. intros [?|[->|?]]; tauto.
    + rewrite elem_of_app, list_elem_of_singleton. tauto.
Qed.

(** A key holds the value of the last pair that has it. *)
Lemma dict_update_get d pairs i key value :
  pairs !! i = Some (key, value) ->
  (forall j v, (i < j)%nat -> pairs !! j <> Some (key, v)) ->
  dict_get (dict_update d pairs) key = Some value.
Proof.
  revert i. induction pairs as [|[k v] pairs IH] using rev_ind; intros i Hi Hlast.
  - done.
  - rewrite dict_update_snoc, dict_get_set. simpl.
    destruct (decide (i = length pairs)) as [->|Hne].
    + rewrite lookup_app_r, Nat.sub_diag in Hi by lia. simpl in Hi.
      injection Hi as -> ->. by rewrite bool_decide_eq_true_2.
    + assert (Hlt : (i < length pairs)%nat).
      { apply lookup_lt_Some in Hi. rewrite length_app in Hi. simpl in Hi. lia. }
      rewrite lookup_app_l in Hi by done.
      case_bool_decide as Hk.
      * subst k. exfalso. apply (Hlast (length pairs) v Hlt).
        by rewrite lookup_app_r, Nat.sub_diag by lia.
      * apply (IH i Hi). intros j v' Hj Hjv. apply (Hlast j v' Hj).
        rewrite lookup_app_l; [done|]. by apply lookup_lt_Some in Hjv.
Qed.

(** With pairwise distinct new keys the pairs are appended as they are. *)
Lemma dict_update_distinct d pairs :
  NoDup pairs.*1 -> (forall key, key ∈ pairs.*1 -> key ∉ dict_keys d) ->
  dict_update d pairs = d ++ pairs.
Proof.
  revert d. induction pairs as [|[k v] pairs IH]; intros d Hnd Hfresh; simpl.
  - by rewrite app_nil_r.
  - apply NoDup_cons in Hnd as [Hk Hnd].
    assert (Hset : dict_set d k v = d ++ [(k, v)]).
    { assert (Hkd : k ∉ dict_keys d) by (apply Hfresh, list_elem_of_here).
      clear -Hkd. induction d as [|[k' v'] d IH]; cbn [dict_set app]; [done|].
      cbn [dict_keys map fst] in Hkd. apply not_elem_of_cons in Hkd as [Hne Hkd].
      rewrite bool_decide_eq_false_2 by done. by rewrite IH. }
    rewrite Hset, IH, <- app_assoc; [done|done|].
    intros key Hkey. unfold dict_keys. rewrite map_app. simpl.
    rewrite elem_of_app, list_elem_of_singleton.
    intros [Hd| ->]; [|done].
    by apply (Hfresh key); [apply list_elem_of_further|].
Qed.

Lemma dict_of_pairs_distinct pairs :
  NoDup pairs.*1 -> dict_of_pairs pairs = pairs.
Proof.
  intros H. change (dict_of_pairs pairs) with (dict_update [] pairs).
  rewrite dict_update_distinct; [done|done|]. intros key _ ?%elem_of_nil. done.
Qed.

(** A dictionary has as many entries as there are pairs exactly when the
    keys of the pairs are pairwise distinct. *)
Lemma dict_of_pairs_length pairs :
  length (dict_of_pairs pairs) = length pairs <-> NoDup pairs.*1.
Proof.
  split.
  - change (dict_of_pairs pairs) with (dict_update [] pairs). intros Hlen.
    assert (Hnd : NoDup (dict_keys (dict_update [] pairs))).
    { apply dict_update_keys_NoDup. constructor. }
    assert (Hsub : dict_keys (dict_update [] pairs) ⊆+ pairs.*1).
    { apply NoDup_submseteq; [done|]. intros key Hkey.
      apply dict_update_keys in Hkey as [?%elem_of_nil|?]; done. }
    assert (Hperm : dict_keys (dict_update [] pairs) ≡ₚ pairs.*1).
    { apply submseteq_length_Permutation; [done|].
      unfold dict_keys. rewrite !length_map. lia. }
    by rewrite <- Hperm.
  - intros H. by rewrite (dict_of_pairs_distinct pairs H).
Qed.

(* ================================================================== *)
(** * 12. The block parser *)
(* ================================================================== *)

Lemma reconcile_length columns n : length (reconcile columns n) = n.
Proof.
  unfold reconcile. destruct (Nat.ltb_spec (length columns) n) as [Hlt|Hge].
  - rewrite length_app, length_map, length_seq. lia.
  - destruct (Nat.ltb_spec n (length columns)) as [Hlt|Hge'].
    + rewrite length_firstn. lia.
    + lia.
Qed.

Lemma reconcile_longer columns n :
  (length columns < n)%nat ->
  reconcile columns n
  = columns ++ map extra_name (seq (length columns) (n - length columns)).
Proof. intros H. unfold reconcile. by rewrite (proj2 (Nat.ltb_lt _ _) H). Qed.

Lemma reconcile_shorter columns n :
  (n <= length columns)%nat -> reconcile columns n = firstn n columns.
Proof.
  intros H. unfold reconcile. rewrite (proj2 (Nat.ltb_ge _ _) H).
  destruct (Nat.ltb_spec n (length columns)) as [Hlt|Hge]; [done|].
  rewrite firstn_all2; [done|lia].
Qed.

Section BlockParser.

Variable upper_table : char -> str.

Lemma parse_block_data_row block data_row :
  last (block_table_rows block) = Some data_row ->
  parse_block upper_table block
  = (Some (block_label upper_table block),
     dict_of_pairs (combine (block_columns upper_table block data_row) data_row)).
Proof.
  intros Hlast. unfold parse_block. rewrite Hlast.
  destruct (block_rows block) eqn:Hrows; [|done].
  unfold block_table_rows, block_parsed in Hlast. by rewrite Hrows in Hlast.
Qed.

Lemma combine_lookup (columns cells : list str) i key cell :
  columns !! i = Some key -> cells !! i = Some cell ->
  combine columns cells !! i = Some (key, cell).
Proof.
  revert cells i. induction columns as [|k columns IH]; intros [|c cells] [|i]; try done.
  - by intros [= ->] [= ->].
  - simpl. apply IH.
Qed.

Lemma combine_lookup_fst (columns cells : list str) i key cell :
  combine columns cells !! i = Some (key, cell) -> columns !! i = Some key.
Proof.
  revert cells i. induction columns as [|k columns IH]; intros [|c cells] [|i]; try done.
  - by intros [= -> _].
  - simpl. apply IH.
Qed.

Lemma combine_keys (columns cells : list str) :
  length columns = length cells -> (combine columns cells).*1 = columns.
Proof.
  revert cells. induction columns as [|k columns IH]; intros [|c cells]; try done.
  simpl. intros [= H]. by rewrite IH.
Qed.

(** C1 (as the code has it): when the data row has more cells than the
    normalised column list, the block parser keeps those names and appends
    one synthetic name that starts with [EXTRA_] for each surplus cell, so
    there is one column name per data cell.  The values mapping has the
    column names as its keys, each once, and a key holds the cell of the
    last column of that name: it has one entry per data cell exactly when
    the column names are pairwise distinct, and is then the list of the
    names paired with the cells. *)
Theorem surplus_cells_get_extra_columns (block : list str) (data_row : list str) :
  last (block_table_rows block) = Some data_row ->
  (length (block_normalized_columns upper_table block) < length data_row)%nat ->
  exists extras values,
    block_columns upper_table block data_row
      = block_normalized_columns upper_table block ++ extras
    /\ length extras
       = (length data_row - length (block_normalized_columns upper_table block))%nat
    /\ Forall (fun name => exists digits, name = lit "EXTRA_" ++ digits) extras
    /\ length (block_columns upper_table block data_row) = length data_row
    /\ parse_block upper_table block = (Some (block_label upper_table block), values)
    /\ NoDup (dict_keys values)
    /\ (forall key, key ∈ dict_keys values
                    <-> key ∈ block_columns upper_table block data_row)
    /\ (forall i key cell,
          block_columns upper_table block data_row !! i = Some key ->
          data_row !! i = Some cell ->
          (forall j, (i < j)%nat ->
                     block_columns upper_table block data_row !! j <> Some key) ->
          dict_get values key = Some cell)
    /\ (length values = length data_row
        <-> NoDup (block_columns upper_table block data_row))
    /\ (NoDup (block_columns upper_table block data_row) ->
        values = combine (block_columns upper_table block data_row) data_row).
Proof.
  intros Hlast Hlt.
  set (normalized := block_normalized_columns upper_table block) in *.
  set (columns := block_columns upper_table block data_row).
  assert (Hlen : length columns = length data_row) by apply reconcile_length.
  assert (Hkeys : (combine columns data_row).*1 = columns) by by apply combine_keys.
  exists (map extra_name (seq (length normalized) (length data_row - length normalized))),
         (dict_of_pairs (combine columns data_row)).
  split_and!.
  - by apply reconcile_longer.
  - by rewrite length_map, length_seq.
  - apply Forall_forall. intros name Hname%list_elem_of_In%in_map_iff.
    destruct Hname as (i & <- & _). by exists (str_of_nat i).
  - done.
  - by apply parse_block_data_row.
  - apply dict_update_keys_NoDup. constructor.
  - intros key. change (dict_of_pairs (combine columns data_row))
      with (dict_update [] (combine columns data_row)).
    rewrite dict_update_keys, Hkeys. split; [by intros [?%elem_of_nil|?]|by right].
  - intros i key cell Hkey Hcell Hlater.
    apply (dict_update_get [] _ i key cell); [by apply combine_lookup|].
    intros j v Hj Hjv. by apply (Hlater j Hj), (combine_lookup_fst _ data_row _ _ v).
  - rewrite <- Hkeys at 2. rewrite <- dict_of_pairs_length.
    by rewrite length_combine, Hlen, Nat.min_id.
  - intros Hnd. apply dict_of_pairs_distinct. by rewrite Hkeys.
Qed.

End BlockParser.

(** The theorem at a block with two header cells and three data cells. *)
Lemma surplus_cells_get_extra_columns_witness :
  exists extras values,
    block_columns identity_table
        [lit "| T |"; lit "| a | b |"; lit "| 1 | 2 | 3 |"] [lit "1"; lit "2"; lit "3"]
      = block_normalized_columns identity_table
          [lit "| T |"; lit "| a | b |"; lit "| 1 | 2 | 3 |"] ++ extras
    /\ length extras = 1%nat
    /\ parse_block identity_table [lit "| T |"; lit "| a | b |"; lit "| 1 | 2 | 3 |"]
       = (Some (lit "T"), values)
    /\ (length values = 3%nat
        <-> NoDup (block_columns identity_table
                     [lit "| T |"; lit "| a | b |"; lit "| 1 | 2 | 3 |"]
                     [lit "1"; lit "2"; lit "3"])).
Proof.
  destruct (surplus_cells_get_extra_columns identity_table
              [lit "| T |"; lit "| a | b |"; lit "| 1 | 2 | 3 |"]
              [lit "1"; lit "2"; lit "3"])
    as (extras & values & H1 & H2 & _ & _ & H5 & _ & _ & _ & H9 & _).
  - reflexivity.
  - vm_compute. lia.
  - exists extras, values. split_and!; [exact H1|exact H2|exact H5|exact H9].
Defined.

(** C1 fails on the code at a block whose header names a column twice: the
    data row has three cells and the mapping two entries, the first cell is
    dropped; the synthetic name is [EXTRA_2], numbered by the position of
    its cell. *)
Lemma duplicate_column_drops_cell :
  let block := [lit "| T |"; lit "| a | a |"; lit "| 1 | 2 | 3 |"] in
  last (block_table_rows block) = Some [lit "1"; lit "2"; lit "3"]
  /\ block_normalized_columns identity_table block = [lit "a"; lit "a"]
  /\ parse_block identity_table block
     = (Some (lit "T"), [(lit "a", lit "2"); (lit "EXTRA_2", lit "3")])
  /\ length (parse_block identity_table block).2 <> 3%nat.
Proof. split_and!; try reflexivity. vm_compute. lia. Qed.

Lemma lit_inj s t : lit s = lit t -> s = t.
Proof.
  unfold lit. intros H.
  rewrite <- (string_of_list_ascii_of_string s), <- (string_of_list_ascii_of_string t).
  f_equal. revert H. generalize (list_ascii_of_string s) (list_ascii_of_string t).
  induction l as [|a l IH]; intros [|b l']; simpl; try done.
  intros [= Hab Hl]. f_equal; [|by apply IH].
  by rewrite <- (ascii_N_embedding a), <- (ascii_N_embedding b), Hab.
Qed.

Lemma str_of_nat_inj i j : str_of_nat i = str_of_nat j -> i = j.
Proof.
  unfold str_of_nat. intros H%lit_inj. apply Unsigned.to_uint_inj.
  assert (Hu : forall d, NilZero.uint_of_string (NilZero.string_of_uint (Nat.to_uint d))
                         = Some (Nat.to_uint d)).
  { intros d. apply NilZero.usu.
    rewrite <- (Unsigned.of_to d) at 1. rewrite Unsigned.to_of. apply unorm_nonnil. }
  pose proof (Hu i) as Hi. rewrite H, Hu in Hi. by injection Hi.
Qed.

Lemma extra_name_inj i j : extra_name i = extra_name j -> i = j.
Proof. unfold extra_name. intros H%app_inv_head. by apply str_of_nat_inj. Qed.

Lemma ESTIMATE_COLUMNS_normalized :
  map normalize_column ESTIMATE_COLUMNS = ESTIMATE_COLUMNS.
Proof. reflexivity. Qed.

Lemma ESTIMATE_COLUMNS_NoDup : NoDup ESTIMATE_COLUMNS.
Proof. apply (bool_decide_unpack _). by vm_compute. Qed.

Lemma extra_name_not_fixed i : extra_name i ∉ ESTIMATE_COLUMNS.
Proof.
  unfold extra_name. intros H. apply list_elem_of_In in H. simpl in H.
  repeat (destruct H as [H|H]; [discriminate H|]). done.
Qed.

Lemma reconcile_fixed_NoDup n : NoDup (reconcile ESTIMATE_COLUMNS n).
Proof.
  destruct (Nat.lt_ge_cases (length ESTIMATE_COLUMNS) n) as [Hlt|Hge].
  - rewrite reconcile_longer by done. apply NoDup_app. split_and!.
    + apply ESTIMATE_COLUMNS_NoDup.
    + intros name Hfixed Hextra%list_elem_of_In%in_map_iff.
      destruct Hextra as (i & <- & _). by apply (extra_name_not_fixed i).
    + apply (NoDup_fmap_2_strong extra_name).
      * intros i j _ _. apply extra_name_inj.
      * apply NoDup_ListNoDup, seq_NoDup.
  - rewrite reconcile_shorter by done. apply (sublist_NoDup _ ESTIMATE_COLUMNS); [apply ESTIMATE_COLUMNS_NoDup|apply sublist_take].
Qed.

Lemma extra_name_16 : extra_name 16 = lit "EXTRA_16".
Proof. reflexivity. Qed.

Lemma extra_name_0 : extra_name 0 = lit "EXTRA_0".
Proof. reflexivity. Qed.

(** C4 (what the code does): for a block labelled ESTIMATE with a
    multi-cell row after the first, the columns do not depend on the header
    of the block.  With at most sixteen data cells they are the first names
    of the fixed schema, as the claim says.  With more than sixteen, the
    schema is followed by names numbered by the position of their cell: the
    seventeenth column is [EXTRA_16], and no column is [EXTRA_0]; this is
    not the extension by [EXTRA_0], [EXTRA_1], ... of the mismatch rule. *)
Theorem estimate_block_extras_numbered_from_16
    (upper_table : char -> str) (block : list str) (data_row : list str) :
  block_label upper_table block = lit "ESTIMATE" ->
  last (block_table_rows block) = Some data_row ->
  length ESTIMATE_COLUMNS = 16%nat
  /\ length (block_columns upper_table block data_row) = length data_row
  /\ ((length data_row <= 16)%nat ->
      block_columns upper_table block data_row
      = firstn (length data_row) ESTIMATE_COLUMNS
      /\ block_columns upper_table block data_row
         = reconcile_from_zero ESTIMATE_COLUMNS (length data_row))
  /\ ((16 < length data_row)%nat ->
      block_columns upper_table block data_row
      = ESTIMATE_COLUMNS ++ map extra_name (seq 16 (length data_row - 16))
      /\ block_columns upper_table block data_row !! 16%nat = Some (lit "EXTRA_16")
      /\ (lit "EXTRA_0" ∉ block_columns upper_table block data_row)
      /\ reconcile_from_zero ESTIMATE_COLUMNS (length data_row) !! 16%nat
         = Some (lit "EXTRA_0")
      /\ block_columns upper_table block data_row
         <> reconcile_from_zero ESTIMATE_COLUMNS (length data_row))
  /\ parse_block upper_table block
     = (Some (lit "ESTIMATE"),
        combine (block_columns upper_table block data_row) data_row).
Proof.
  intros Hlabel Hlast.
  assert (Hcols : block_columns upper_table block data_row
                  = reconcile ESTIMATE_COLUMNS (length data_row)).
  { unfold block_columns, block_normalized_columns.
    rewrite Hlabel, bool_decide_eq_true_2 by done.
    by rewrite ESTIMATE_COLUMNS_normalized. }
  split_and!.
  - reflexivity.
  - apply reconcile_length.
  - intros Hle. rewrite Hcols, reconcile_shorter by done. split; [done|].
    unfold reconcile_from_zero.
    rewrite (proj2 (Nat.ltb_ge _ _)) by done.
    destruct (Nat.ltb_spec (length data_row) (length ESTIMATE_COLUMNS)); [done|].
    rewrite firstn_all2; [done|lia].
  - intros Hlt. rewrite Hcols. rewrite reconcile_longer by exact Hlt.
    change (length ESTIMATE_COLUMNS) with 16%nat.
    destruct (length data_row - 16)%nat as [|k] eqn:Hk; [lia|].
    assert (Hcode : (ESTIMATE_COLUMNS ++ map extra_name (seq 16 (S k))) !! 16%nat
                    = Some (lit "EXTRA_16")).
    { rewrite lookup_app_r by (change (length ESTIMATE_COLUMNS) with 16%nat; lia).
      change (length ESTIMATE_COLUMNS) with 16%nat. rewrite Nat.sub_diag.
      cbn [seq map lookup list_lookup]. by rewrite extra_name_16. }
    assert (Hspec : reconcile_from_zero ESTIMATE_COLUMNS (length data_row) !! 16%nat
                    = Some (lit "EXTRA_0")).
    { unfold reconcile_from_zero. change (length ESTIMATE_COLUMNS) with 16%nat.
      rewrite (proj2 (Nat.ltb_lt _ _) Hlt), Hk.
      rewrite lookup_app_r by (change (length ESTIMATE_COLUMNS) with 16%nat; lia).
      change (length ESTIMATE_COLUMNS) with 16%nat. rewrite Nat.sub_diag.
      cbn [seq map lookup list_lookup]. by rewrite extra_name_0. }
    split; [reflexivity|]. split; [exact Hcode|]. split; [|split; [exact Hspec|]].
    + rewrite <- extra_name_0. intros [Hfixed|Hextra]%elem_of_app.
      * by apply (extra_name_not_fixed 0).
      * apply list_elem_of_In, in_map_iff in Hextra as (i & Hi & Hin).
        apply extra_name_inj in Hi. apply in_seq in Hin. lia.
    + intros Heq. rewrite Heq, Hspec in Hcode.
      injection Hcode as Hcode. discriminate Hcode.
  - rewrite (parse_block_data_row upper_table block data_row Hlast), Hlabel.
    f_equal. apply dict_of_pairs_distinct.
    rewrite combine_keys by apply reconcile_length.
    rewrite Hcols. apply reconcile_fixed_NoDup.
Qed.

(** The theorem at an ESTIMATE block with a data row of seventeen cells. *)
Lemma estimate_block_extras_numbered_from_16_witness :
  block_columns identity_table estimate_block_17 estimate_data_17 !! 16%nat
  = Some (lit "EXTRA_16").
Proof.
  destruct (estimate_block_extras_numbered_from_16 identity_table
              estimate_block_17 estimate_data_17)
    as (_ & _ & _ & Hlong & _).
  - vm_compute. reflexivity.
  - vm_compute. reflexivity.
  - destruct Hlong as (_ & H16 & _); [vm_compute; lia|]. exact H16.
Defined.

(** The code at the block of seventeen data cells: the seventeenth cell is
    filed under [EXTRA_16], and no key is [EXTRA_0]. *)
Lemma estimate_block_17_values :
  (parse_block identity_table estimate_block_17).1 = Some (lit "ESTIMATE")
  /\ dict_keys (parse_block identity_table estimate_block_17).2
     = ESTIMATE_COLUMNS ++ [lit "EXTRA_16"]
  /\ dict_get (parse_block identity_table estimate_block_17).2 (lit "EXTRA_16")
     = Some (lit "17")
  /\ dict_get (parse_block identity_table estimate_block_17).2 (lit "EXTRA_0") = None.
Proof. split_and!; vm_compute; reflexivity. Qed.

(* ================================================================== *)
(** * 13. The column order *)
(* ================================================================== *)

Lemma insert_derived_unfold order :
  insert_derived order
  = if bool_decide (MODEL_SIZE_CATEGORY ∈ order) then order
    else list_insert_at (insert_position order) MODEL_SIZE_CATEGORY order.
Proof.
  unfold insert_derived. cbn [fold_left insert_derived_step].
  by destruct (bool_decide (MODEL_SIZE_CATEGORY ∈ order)).
Qed.

Lemma insert_position_pos order : order <> [] -> (0 < insert_position order)%nat.
Proof.
  unfold insert_position. intros H.
  destruct (index_of METADATA_PARAMETERS order); [lia|].
  destruct order; [done|simpl; lia].
Qed.

Lemma list_insert_at_sublist i x l : l `sublist_of` list_insert_at i x l.
Proof.
  unfold list_insert_at. rewrite <- (firstn_skipn i l) at 1.
  apply sublist_app; [done|]. by apply sublist_cons.
Qed.

Lemma list_insert_at_elem i x l y : y ∈ list_insert_at i x l <-> y = x \/ y ∈ l.
Proof.
  unfold list_insert_at. rewrite <- (firstn_skipn i l) at 3.
  rewrite !elem_of_app, elem_of_cons. tauto.
Qed.

Lemma list_insert_at_NoDup i x l : x ∉ l -> NoDup l -> NoDup (list_insert_at i x l).
Proof.
  unfold list_insert_at. intros Hx Hl. rewrite <- (firstn_skipn i l) in Hx, Hl.
  apply NoDup_app in Hl as (H1 & H2 & H3). apply not_elem_of_app in Hx as [Hx1 Hx2].
  apply NoDup_app. split_and!; [done| |by apply NoDup_cons].
  intros y Hy [->|Hy']%elem_of_cons; [done|]. by apply (H2 y).
Qed.

Lemma list_insert_at_head i x l first :
  (0 < i)%nat -> head l = Some first -> head (list_insert_at i x l) = Some first.
Proof. destruct l as [|y l], i as [|i]; simpl; try done. lia. Qed.

Lemma track_key_cases order key :
  ((key ∈ order) /\ track_key order key = order)
  \/ ((key ∉ order) /\ track_key order key = order ++ [key]).
Proof.
  unfold track_key. destruct (decide (key ∈ order)) as [H|H].
  - left. by rewrite bool_decide_eq_true_2.
  - right. by rewrite bool_decide_eq_false_2.
Qed.



Lemma column_order_step_sublist order order' :
  column_order_step order order' -> order `sublist_of` order'.
Proof.
  intros [o key|o].
  - destruct (track_key_cases o key) as [[_ ->]|[_ ->]]; [done|].
    by apply sublist_inserts_r.
  - rewrite insert_derived_unfold. case_bool_decide; [done|].
    apply list_insert_at_sublist.
Qed.

Lemma column_order_step_invariant order order' :
  head order = Some (lit "file") /\ NoDup order ->
  column_order_step order order' ->
  head order' = Some (lit "file") /\ NoDup order'.
Proof.
  intros Hinv Hstep. destruct Hstep as [o key|o]; destruct Hinv as [Hhead Hnd].
  - destruct (track_key_cases o key) as [[_ ->]|[Hnew ->]]; [by split|]. split.
    + by destruct o.
    + apply NoDup_app. split_and!; [done| |apply NoDup_singleton].
      by intros x Hx ->%list_elem_of_singleton.
  - rewrite insert_derived_unfold. case_bool_decide as Hin; [by split|]. split.
    + apply list_insert_at_head; [|done]. apply insert_position_pos. by destruct o.
    + by apply list_insert_at_NoDup.
Qed.

Lemma column_order_reachable_invariant order :
  column_order_reachable order -> head order = Some (lit "file") /\ NoDup order.
Proof.
  induction 1 as [|order order' _ IH Hstep].
  - split; [done|apply NoDup_singleton].
  - by apply (column_order_step_invariant order).
Qed.

Lemma track_columns_reachable order keys :
  column_order_reachable order ->
  column_order_reachable (fold_left track_key keys order).
Proof.
  revert order. induction keys as [|key keys IH]; intros order H; cbn [fold_left]; [done|].
  apply IH. eapply reachable_step; [exact H|constructor].
Qed.

Section Driver.

Variable upper_table : char -> str.

Lemma load_files_reachable files :
  column_order_reachable (load_files upper_table files).2.
Proof.
  unfold load_files.
  assert (H : column_order_reachable (@nil dict, [lit "file"]).2) by constructor.
  revert H. generalize (@nil dict, [lit "file"]).
  induction files as [|file files IH]; intros st Hst; cbn [fold_left]; [done|].
  apply IH. destruct st as [records order]. unfold load_file.
  destruct (parse_file upper_table file.1 file.2) as [[|kv record]|]; [done| |done].
  simpl. by apply track_columns_reachable.
Qed.

Lemma main_written files columns rows :
  main upper_table files = Written columns rows ->
  columns = insert_derived (load_files upper_table files).2
  /\ exists column,
       frame_column METADATA_PARAMETERS (load_files upper_table files).1 = Some column
       /\ rows = sort_values (make_rows (load_files upper_table files).1
                                        (apply_parse_parameters upper_table column)).
Proof.
  unfold main. destruct (load_files upper_table files) as [records order]. simpl.
  destruct records as [|record records]; [done|].
  destruct (frame_column METADATA_PARAMETERS (record :: records)) as [column|]; [|done].
  intros [= <- <-]. split; [done|]. by exists column.
Qed.

End Driver.

Lemma dict_get_is_Some d key : is_Some (dict_get d key) <-> key ∈ dict_keys d.
Proof.
  split.
  - intros [v Hv]. destruct (decide (key ∈ dict_keys d)) as [|Hn]; [done|].
    apply dict_get_None in Hn. congruence.
  - intros Hin. destruct (dict_get d key) eqn:E; [by eexists|].
    by apply dict_get_None in E.
Qed.

Lemma frame_column_Some key records :
  (exists record, record ∈ records /\ key ∈ dict_keys record) ->
  exists column, frame_column key records = Some column.
Proof.
  intros (record & Hrecord & Hkey). unfold frame_column.
  assert (Hex : existsb (fun r => bool_decide (is_Some (dict_get r key))) records = true).
  { apply existsb_exists. exists record. split; [by apply list_elem_of_In|].
    by apply bool_decide_eq_true_2, dict_get_is_Some. }
  rewrite Hex. by eexists.
Qed.

Lemma frame_column_key key records column :
  frame_column key records = Some column ->
  exists record, record ∈ records /\ key ∈ dict_keys record.
Proof.
  unfold frame_column.
  destruct (existsb _ records) eqn:Hex; [|done]. intros _.
  apply existsb_exists in Hex as (record & Hrecord & Hkey).
  exists record. split; [by apply list_elem_of_In|].
  apply dict_get_is_Some. by apply bool_decide_eq_true_1 in Hkey.
Qed.

Lemma track_keys_elem keys order key :
  key ∈ fold_left track_key keys order <-> key ∈ order \/ key ∈ keys.
Proof.
  revert order. induction keys as [|k keys IH]; intros order; cbn [fold_left].
  - rewrite elem_of_nil. tauto.
  - rewrite IH, elem_of_cons.
    destruct (track_key_cases order k) as [[Hin ->]|[Hnew ->]].
    + split; [tauto|]. intros [?|[->|?]]; tauto.
    + rewrite elem_of_app, list_elem_of_singleton. tauto.
Qed.

Section DerivedColumn.

Variable upper_table : char -> str.




End DerivedColumn.



(** When no record has the key METADATA_PARAMETERS the run does not reach
    lines 260-271: [df["METADATA_PARAMETERS"]] on line 253 raises. *)
Lemma main_without_parameters_column :
  main identity_table [file_without_metadata] = KeyError METADATA_PARAMETERS.
Proof. vm_compute. reflexivity. Qed.

(* ================================================================== *)
(** * 14. The row order *)
(* ================================================================== *)

Lemma Qltb_ge a b : negb (PyFloat.Qltb b a) = true <-> (a <= b)%Q.
Proof.
  unfold PyFloat.Qltb, Qle. rewrite negb_true_iff, Z.ltb_ge. done.
Qed.

Lemma params_leb_total p q : params_leb p q = false -> params_leb q p = true.
Proof.
  destruct p as [[x|[]|]|], q as [[y|[]|]|]; simpl; try done.
  rewrite negb_false_iff. unfold PyFloat.Qltb. rewrite negb_true_iff, Z.ltb_lt, Z.ltb_ge. lia.
Qed.

Lemma params_leb_trans p q r :
  params_leb p q = true -> params_leb q r = true -> params_leb p r = true.
Proof.
  destruct p as [[x|[]|]|], q as [[y|[]|]|], r as [[z|[]|]|]; simpl; try done.
  rewrite !Qltb_ge. apply Qle_trans.
Qed.

Lemma row_leb_total a b : row_leb a b = false -> row_leb b a = true.
Proof.
  unfold row_leb. intros H. apply orb_false_iff in H as [H1 H2].
  apply Nat.ltb_ge in H1. apply andb_false_iff in H2.
  apply orb_true_iff.
  destruct (decide (row_bucket a = row_bucket b)) as [Heq|Hne].
  - right. rewrite Heq, Nat.eqb_refl. simpl.
    destruct H2 as [H2|H2]; [by rewrite Heq, Nat.eqb_refl in H2|].
    by apply params_leb_total.
  - left. apply Nat.ltb_lt. lia.
Qed.

Lemma row_leb_trans a b c :
  row_leb a b = true -> row_leb b c = true -> row_leb a c = true.
Proof.
  unfold row_leb. rewrite !orb_true_iff, !andb_true_iff, !Nat.ltb_lt, !Nat.eqb_eq.
  intros [H1|[H1 P1]] [H2|[H2 P2]]; [left; lia|left; lia|left; lia|].
  right. split; [lia|]. by apply (params_leb_trans _ (row_params b)).
Qed.

Lemma insert_row_perm x l : insert_row x l ≡ₚ x :: l.
Proof.
  induction l as [|y l IH]; simpl; [done|].
  destruct (row_leb x y); [done|]. rewrite IH. apply Permutation_swap.
Qed.

Lemma sort_values_perm rows : sort_values rows ≡ₚ rows.
Proof.
  induction rows as [|x rows IH]; simpl; [done|].
  by rewrite insert_row_perm, IH.
Qed.

Lemma insert_row_sorted x l :
  StronglySorted (fun a b => row_leb a b = true) l ->
  StronglySorted (fun a b => row_leb a b = true) (insert_row x l).
Proof.
  induction 1 as [|y l Hl IH Hy]; simpl.
  - constructor; constructor.
  - destruct (row_leb x y) eqn:Hxy.
    + constructor; [by constructor|]. constructor; [done|].
      eapply Forall_impl; [exact Hy|]. intros z Hz. by apply (row_leb_trans x y z).
    + constructor; [done|].
      assert (Hin : forall z, z ∈ insert_row x l -> row_leb y z = true).
      { intros z Hz. rewrite insert_row_perm in Hz.
        apply elem_of_cons in Hz as [->|Hz]; [by apply row_leb_total|].
        rewrite Forall_forall in Hy. by apply Hy. }
      by apply Forall_forall.
Qed.

Lemma sort_values_sorted rows :
  StronglySorted (fun a b => row_leb a b = true) (sort_values rows).
Proof.
  induction rows as [|x rows IH]; simpl; [constructor|].
  by apply insert_row_sorted.
Qed.

Lemma StronglySorted_lookup {A} (R : A -> A -> Prop) l i j a b :
  StronglySorted R l -> (i < j)%nat -> l !! i = Some a -> l !! j = Some b -> R a b.
Proof.
  intros H. revert i j. induction H as [|x l Hl IH Hx]; intros i j Hij Hi Hj; [done|].
  destruct j as [|j]; [lia|]. destruct i as [|i].
  - injection Hi as ->. simpl in Hj. rewrite Forall_forall in Hx.
    apply Hx. by apply list_elem_of_lookup_2 in Hj.
  - apply (IH i j); [lia|done|done].
Qed.

Lemma row_leb_before a b : row_leb a b = true -> row_before a b.
Proof.
  unfold row_leb, row_before.
  rewrite orb_true_iff, andb_true_iff, Nat.ltb_lt, Nat.eqb_eq.
  intros [Hlt|[Heq Hp]]; (split; [lia|]); intros Heq'; [lia|].
  split.
  - destruct (row_params a) as [[x|[]|]|], (row_params b) as [[y|[]|]|]; done.
  - intros x y Hx Hy Hxn Hyn. rewrite Hx, Hy in Hp.
    destruct x as [x|[]|], y as [y|[]|]; simpl in *; try done.
    by apply Qltb_ge.
Qed.

Lemma size_category_bucket p :
  exists index, bucket_order (size_category p) = Some index /\ (index <= 4)%nat.
Proof.
  destruct p as [p|]; simpl; [|exists 4%nat; split; [reflexivity|lia]].
  destruct (PyFloat.lt_int p 1000000000); [exists 0%nat; split; [reflexivity|lia]|].
  destruct (PyFloat.lt_int p 10000000000); [exists 1%nat; split; [reflexivity|lia]|].
  destruct (PyFloat.lt_int p 100000000000); [exists 2%nat; split; [reflexivity|lia]|].
  exists 3%nat. split; [reflexivity|lia].
Qed.

Lemma make_rows_category records params r :
  r ∈ make_rows records params -> row_category r = size_category (row_params r).
Proof.
  unfold make_rows. intros H%list_elem_of_In%in_map_iff.
  by destruct H as (rp & <- & _).
Qed.

Lemma make_rows_records records params :
  length records = length params ->
  map row_record (make_rows records params) = records.
Proof.
  unfold make_rows. revert params.
  induction records as [|r records IH]; intros [|p params]; simpl; try done.
  intros [= H]. by rewrite IH.
Qed.

Lemma frame_column_length key records column :
  frame_column key records = Some column -> length column = length records.
Proof.
  unfold frame_column. destruct (existsb _ records); [|done].
  intros [= <-]. by rewrite length_map.
Qed.

Lemma apply_parse_parameters_length upper_table column :
  length (apply_parse_parameters upper_table column) = length column.
Proof.
  unfold apply_parse_parameters. destruct (existsb _ _); by rewrite !length_map.
Qed.

(** C7: the rows written are the records of the run, one row each, in the
    order of [sort_values]: of two rows the earlier has the lower bucket
    index (Small 0, Medium 1, Large 2, Ultra-Large 3, Unknown 4, the index of
    the row's size category), or the same index and no greater a parameter
    count; a row without a count comes after the rows of its bucket that
    have one. *)
Theorem rows_sorted_by_bucket_then_params
    (upper_table : char -> str) (files : list (str * str))
    (columns : list str) (rows : list row) :
  main upper_table files = Written columns rows ->
  (bucket_order (lit "Small (<1B)") = Some 0
   /\ bucket_order (lit "Medium (1-10B)") = Some 1
   /\ bucket_order (lit "Large (10-100B)") = Some 2
   /\ bucket_order (lit "Ultra-Large (100B+)") = Some 3
   /\ bucket_order (lit "Unknown") = Some 4)%nat
  /\ map row_record rows ≡ₚ (load_files upper_table files).1
  /\ (forall r, r ∈ rows ->
        row_category r = size_category (row_params r)
        /\ bucket_order (row_category r) = Some (row_bucket r))
  /\ (forall i j a b,
        (i < j)%nat -> rows !! i = Some a -> rows !! j = Some b -> row_before a b).
Proof.
  intros (_ & column & Hcolumn & ->)%main_written.
  split_and!; try reflexivity.
  - rewrite sort_values_perm, make_rows_records; [done|].
    by rewrite apply_parse_parameters_length, (frame_column_length _ _ _ Hcolumn).
  - intros r Hr. rewrite sort_values_perm in Hr.
    apply make_rows_category in Hr. split; [done|].
    unfold row_bucket. rewrite Hr.
    by destruct (size_category_bucket (row_params r)) as (index & -> & _).
  - intros i j a b Hij Ha Hb. apply row_leb_before.
    exact (StronglySorted_lookup (fun a b => row_leb a b = true) _ i j a b
             (sort_values_sorted _) Hij Ha Hb).
Qed.

(** The theorem at the files of 7.5 B and of 500 M parameters, read in this
    order: the row of 500 M comes first. *)
Lemma rows_sorted_by_bucket_then_params_witness :
  exists columns a b,
    main identity_table [file_7500M; file_500M] = Written columns [a; b]
    /\ dict_get (row_record a) (lit "file") = Some (lit "b.txt")
    /\ dict_get (row_record b) (lit "file") = Some (lit "a.txt")
    /\ row_before a b.
Proof.
  eexists _, _, _. split; [vm_compute; reflexivity|].
  split; [reflexivity|]. split; [reflexivity|].
  eapply (rows_sorted_by_bucket_then_params identity_table [file_7500M; file_500M]
            _ _ ltac:(vm_compute; reflexivity)) with (i := 0%nat) (j := 1%nat);
    [lia|reflexivity|reflexivity].
Defined.

(* ================================================================== *)
(** * 15. parse_block changes no list *)
(* ================================================================== *)

Section Frame.

Lemma preserves_ret {A} (a : A) : preserves (ret a).
Proof. by intros h a' h' [= _ <-]. Qed.

Lemma preserves_raise {A} : preserves (@raise A).
Proof. by intros h a h'. Qed.

Lemma preserves_bind {A B} (m : M A) (k : A -> M B) :
  preserves m -> (forall a, preserves (k a)) -> preserves (bind m k).
Proof.
  intros Hm Hk h b h' Hrun. unfold bind in Hrun.
  destruct (m h) as [[a h1]|] eqn:Hmh; [|done].
  transitivity h1; [by apply (Hm h a)|by apply (Hk a h1 b)].
Qed.

Lemma new_list_fresh (h : heap) : h !! fresh (dom h) = None.
Proof. apply not_elem_of_dom, is_fresh. Qed.

Lemma preserves_new_list items : preserves (new_list items).
Proof.
  intros h l h' [= _ <-]. apply insert_subseteq, new_list_fresh.
Qed.

Lemma preserves_read_list l : preserves (read_list l).
Proof.
  intros h items h'. unfold read_list. destruct (h !! l); [|done]. by intros [= _ <-].
Qed.

Lemma preserves_as_str v : preserves (as_str v).
Proof. destruct v; [apply preserves_ret|apply preserves_raise]. Qed.

Lemma preserves_as_ref v : preserves (as_ref v).
Proof. destruct v; [apply preserves_raise|apply preserves_ret]. Qed.

Lemma preserves_of_option {A} (o : option A) : preserves (of_option o).
Proof. destruct o; [apply preserves_ret|apply preserves_raise]. Qed.

Lemma preserves_for_each {A B} (f : A -> M B) l :
  (forall a, preserves (f a)) -> preserves (for_each f l).
Proof.
  intros Hf. induction l as [|a l IH]; simpl; [apply preserves_ret|].
  apply preserves_bind; [done|]. intros b.
  apply preserves_bind; [done|]. intros bs. apply preserves_ret.
Qed.

Lemma preserves_keep_if {A} (f : A -> M bool) l :
  (forall a, preserves (f a)) -> preserves (keep_if f l).
Proof.
  intros Hf. induction l as [|a l IH]; simpl; [apply preserves_ret|].
  apply preserves_bind; [done|]. intros b.
  apply preserves_bind; [done|]. intros bs. apply preserves_ret.
Qed.

Lemma preserves_read_strs l : preserves (read_strs l).
Proof.
  apply preserves_bind; [apply preserves_read_list|]. intros items.
  apply preserves_for_each, preserves_as_str.
Qed.

End Frame.

Ltac preserve :=
  repeat first
    [ apply preserves_ret | apply preserves_raise | apply preserves_new_list
    | apply preserves_read_list | apply preserves_read_strs
    | apply preserves_as_str | apply preserves_as_ref | apply preserves_of_option
    | apply preserves_for_each; intros ? | apply preserves_keep_if; intros ?
    | apply preserves_bind; [|intros ?]
    | match goal with
      | |- preserves (match ?x with _ => _ end) => destruct x
      end ].

(** Whatever the heap holds, a call that returns leaves every list that was
    there as it was. *)
Lemma parse_block_heap_preserves upper_table estimate_columns block :
  preserves (parse_block_heap upper_table estimate_columns block).
Proof. unfold parse_block_heap. preserve. Qed.

Section Returns.

Lemma returns_ret {A} (a : A) h (Q : A -> heap -> Prop) : Q a h -> returns (ret a) h Q.
Proof. intros HQ. by exists a, h. Qed.

Lemma returns_bind {A B} (m : M A) (k : A -> M B) h (Q : B -> heap -> Prop) :
  returns m h (fun a h1 => returns (k a) h1 Q) -> returns (bind m k) h Q.
Proof.
  intros (a & h1 & Hm & Hsub & b & h2 & Hk & Hsub' & HQ).
  exists b, h2. unfold bind. rewrite Hm. split_and!; [done| |done].
  by transitivity h1.
Qed.

Lemma returns_new_list items h (Q : loc -> heap -> Prop) :
  (forall l h', h ⊆ h' -> h' !! l = Some items -> Q l h') ->
  returns (new_list items) h Q.
Proof.
  intros HQ. exists (fresh (dom h)), (<[fresh (dom h) := items]> h).
  assert (Hsub : h ⊆ <[fresh (dom h) := items]> h)
    by apply insert_subseteq, new_list_fresh.
  split_and!; [done|done|]. apply HQ; [done|]. apply lookup_insert_eq.
Qed.

Lemma returns_read_list l items h (Q : list val -> heap -> Prop) :
  h !! l = Some items -> Q items h -> returns (read_list l) h Q.
Proof. intros Hl HQ. exists items, h. unfold read_list. by rewrite Hl. Qed.

Lemma returns_as_str s h (Q : str -> heap -> Prop) :
  Q s h -> returns (as_str (VStr s)) h Q.
Proof. apply returns_ret. Qed.

Lemma returns_as_ref l h (Q : loc -> heap -> Prop) :
  Q l h -> returns (as_ref (VRef l)) h Q.
Proof. apply returns_ret. Qed.

Lemma returns_of_option {A} (a : A) h (Q : A -> heap -> Prop) :
  Q a h -> returns (of_option (Some a)) h Q.
Proof. apply returns_ret. Qed.

Lemma returns_strs ss h (Q : list str -> heap -> Prop) :
  Q ss h -> returns (for_each as_str (VStr <$> ss)) h Q.
Proof.
  revert Q. induction ss as [|s ss IH]; intros Q HQ; simpl; [by apply returns_ret|].
  apply returns_bind, returns_as_str, returns_bind, IH. by apply returns_ret.
Qed.

Lemma returns_read_strs l ss h (Q : list str -> heap -> Prop) :
  h !! l = Some (VStr <$> ss) -> Q ss h -> returns (read_strs l) h Q.
Proof.
  intros Hl HQ. apply returns_bind, (returns_read_list l (VStr <$> ss)); [done|].
  by apply returns_strs.
Qed.

Lemma point_to_weaken h h' ls xss : h ⊆ h' -> point_to h ls xss -> point_to h' ls xss.
Proof.
  intros Hsub H. eapply Forall2_impl; [exact H|].
  intros l xs Hl. by apply (lookup_weaken h h').
Qed.

(** The comprehension of line 73 makes one new list of cells per row. *)
Lemma returns_cell_lists (f : str -> list str) rows h (Q : list loc -> heap -> Prop) :
  (forall ls h', h ⊆ h' -> point_to h' ls (map f rows) -> Q ls h') ->
  returns (for_each (fun r => new_list (VStr <$> f r)) rows) h Q.
Proof.
  revert h Q. induction rows as [|r rows IH]; intros h Q HQ; simpl.
  - apply returns_ret, HQ; [done|constructor].
  - apply returns_bind, returns_new_list. intros l h1 Hsub1 Hl.
    apply returns_bind, IH. intros ls h2 Hsub2 Hls.
    apply returns_ret, HQ; [by transitivity h1|].
    constructor; [|done]. by apply (lookup_weaken h1 h2).
Qed.

(** The filter of line 79 keeps the references of the rows of more than
    one cell. *)
Lemma returns_multi_cell ls xss h (Q : list val -> heap -> Prop) :
  point_to h ls xss ->
  (forall kept,
     point_to h kept (List.filter (fun r => (1 <? length r)%nat) xss) ->
     Q (VRef <$> kept) h) ->
  returns (keep_if (fun v => bind (as_ref v) (fun r =>
                               bind (read_list r) (fun cells =>
                                 ret (1 <? length cells)%nat)))
                   (VRef <$> ls)) h Q.
Proof.
  intros Hls. revert Q. induction Hls as [|l xs ls xss Hl Hls IH]; intros Q HQ; simpl.
  - apply returns_ret. apply (HQ []). constructor.
  - apply returns_bind, returns_bind, returns_as_ref, returns_bind.
    apply (returns_read_list l (VStr <$> xs)); [done|].
    apply returns_ret, returns_bind, IH. intros kept Hkept.
    apply returns_ret. rewrite length_fmap.
    specialize (HQ (if (1 <? length xs)%nat then l :: kept else kept)).
    cbn [List.filter] in HQ. destruct (1 <? length xs)%nat.
    + apply HQ. by constructor.
    + by apply HQ.
Qed.

Lemma point_to_last h ls xss xs :
  point_to h ls xss -> last xss = Some xs ->
  exists l, last ls = Some l /\ h !! l = Some (VStr <$> xs).
Proof.
  induction 1 as [|l ys ls xss Hl Hls IH]; [done|].
  destruct Hls as [|l' ys' ls' xss' Hl' Hls'].
  - intros [= <-]. by exists l.
  - intros Hlast. apply IH. exact Hlast.
Qed.

Lemma point_to_last_None h ls xss :
  point_to h ls xss -> last xss = None -> ls = [].
Proof.
  destruct 1 as [|l ys ls xss Hl Hls]; [done|].
  intros Hlast. apply last_None in Hlast. done.
Qed.

Lemma fmap_last_ref ls : last (VRef <$> ls) = VRef <$> last ls.
Proof. apply fmap_last. Qed.

End Returns.

Ltac weaken Hsub :=
  repeat match goal with
  | H : ?h !! _ = Some _ |- _ =>
      match type of Hsub with
      | h ⊆ ?h' => apply (fun H' => lookup_weaken h h' _ _ H' Hsub) in H
      end
  | H : point_to ?h _ _ |- _ =>
      match type of Hsub with
      | h ⊆ ?h' => apply (point_to_weaken h h' _ _ Hsub) in H
      end
  end.

Lemma point_to_cons h ls xs xss :
  point_to h ls (xs :: xss) ->
  exists l ls', ls = l :: ls' /\ h !! l = Some (VStr <$> xs) /\ point_to h ls' xss.
Proof. inversion 1 as [|l ys ls' yss Hl Hls]. subst. by exists l, ls'. Qed.

Lemma parse_block_heap_returns upper_table estimate_columns block lines (h : heap) :
  h !! estimate_columns = Some (VStr <$> ESTIMATE_COLUMNS) ->
  h !! block = Some (VStr <$> lines) ->
  returns (parse_block_heap upper_table estimate_columns block) h
          (fun result _ => result = parse_block upper_table lines).
Proof.
  intros Hfixed Hblock. unfold parse_block_heap.
  apply returns_bind, (returns_read_strs block lines); [done|].
  apply returns_bind, returns_new_list. intros rows h1 Hsub1 Hrows. weaken Hsub1.
  apply returns_bind, (returns_read_strs rows (block_rows lines)); [done|].
  unfold parse_block.
  destruct (block_rows lines) as [|row rest] eqn:Hlines; [by apply returns_ret|].
  assert (Hparsed : block_parsed lines = row_cells row :: map row_cells rest).
  { unfold block_parsed. by rewrite Hlines. }
  apply returns_bind, returns_cell_lists. intros ls h2 Hsub2 Hls. weaken Hsub2.
  apply returns_bind, returns_new_list. intros parsed h3 Hsub3 Hp. weaken Hsub3.
  apply returns_bind, (returns_read_list parsed (VRef <$> ls)); [done|].
  apply point_to_cons in Hls as (l0 & ls' & -> & Hl0 & Hls').
  cbn [fmap list_fmap lookup list_lookup].
  apply returns_bind, returns_of_option, returns_bind, returns_as_ref.
  apply returns_bind, (returns_read_list l0 (VStr <$> row_cells row)); [done|].
  pose proof (row_cells_nonempty row) as Hcells.
  destruct (row_cells row) as [|cell0 cells] eqn:Hrow; [done|].
  cbn [fmap list_fmap lookup list_lookup].
  apply returns_bind, returns_of_option, returns_bind, returns_as_str.
  assert (Hlabel : block_label upper_table lines = upper upper_table cell0).
  { unfold block_label. by rewrite Hparsed. }
  cbn [drop].
  apply returns_bind, returns_new_list. intros tail h4 Hsub4 Htail. weaken Hsub4.
  apply returns_bind, (returns_read_list tail (VRef <$> ls')); [done|].
  apply returns_bind, (returns_multi_cell ls' (map row_cells rest)); [done|].
  intros kept Hkept.
  assert (Htable : block_table_rows lines
                   = List.filter (fun r => (1 <? length r)%nat) (map row_cells rest)).
  { unfold block_table_rows. by rewrite Hparsed. }
  rewrite <- Htable in Hkept.
  apply returns_bind, returns_new_list. intros table_rows h5 Hsub5 Htr. weaken Hsub5.
  apply returns_bind, (returns_read_list table_rows (VRef <$> kept)); [done|].
  rewrite fmap_last_ref.
  destruct (last (block_table_rows lines)) as [data_row|] eqn:Hlast.
  - destruct (point_to_last _ _ _ _ Hkept Hlast) as (ld & Hld & Hdata).
    rewrite Hld. cbn [fmap option_fmap option_map].
    apply returns_bind, returns_as_ref.
    rewrite <- Hlabel.
    set (names := if bool_decide (block_label upper_table lines = lit "ESTIMATE")
                  then ESTIMATE_COLUMNS else hd [] (block_table_rows lines)).
    assert (Hcolumns :
      forall (Q : loc -> heap -> Prop),
        (forall c, h5 !! c = Some (VStr <$> names) -> Q c h5) ->
        returns (if bool_decide (block_label upper_table lines = lit "ESTIMATE")
                 then ret estimate_columns
                 else bind (of_option ((VRef <$> kept) !! 0%nat)) as_ref) h5 Q).
    { intros Q HQ. unfold names in HQ. case_bool_decide.
      - by apply returns_ret, HQ.
      - destruct Hkept as [|k0 header kept' table' Hk0 Hkept']; [done|].
        cbn [fmap list_fmap lookup list_lookup].
        apply returns_bind, returns_of_option, returns_as_ref. by apply HQ. }
    apply returns_bind, Hcolumns. intros c Hc. clear Hcolumns.
    apply returns_bind, (returns_read_strs c names); [done|].
    apply returns_bind, returns_new_list. intros columns h6 Hsub6 Hcols. weaken Hsub6.
    change (map normalize_column names)
      with (block_normalized_columns upper_table lines) in Hcols.
    set (normalized := block_normalized_columns upper_table lines) in *.
    apply returns_bind, (returns_read_list columns (VStr <$> normalized)); [done|].
    apply returns_bind, (returns_read_list ld (VStr <$> data_row)); [done|].
    rewrite !length_fmap.
    assert (Hfinal :
      forall (Q : loc -> heap -> Prop),
        (forall c' h', h6 ⊆ h' ->
           h' !! c' = Some (VStr <$> reconcile normalized (length data_row)) -> Q c' h') ->
        returns (if (length normalized <? length data_row)%nat
                 then new_list ((VStr <$> normalized)
                                ++ (VStr <$> map extra_name
                                      (seq (length normalized)
                                           (length data_row - length normalized))))
                 else if (length data_row <? length normalized)%nat
                      then new_list (firstn (length data_row) (VStr <$> normalized))
                      else ret columns) h6 Q).
    { intros Q HQ. unfold reconcile in HQ.
      destruct (length normalized <? length data_row)%nat.
      - apply returns_new_list. intros c' h' Hsub' Hc'. apply HQ; [done|].
        by rewrite fmap_app.
      - destruct (length data_row <? length normalized)%nat.
        + apply returns_new_list. intros c' h' Hsub' Hc'. apply HQ; [done|].
          by rewrite fmap_take.
        + by apply returns_ret, HQ. }
    apply returns_bind, Hfinal. intros c' h7 Hsub7 Hc'. clear Hfinal. weaken Hsub7.
    apply returns_bind,
      (returns_read_strs c' (reconcile normalized (length data_row))); [done|].
    apply returns_bind, (returns_read_strs ld data_row); [done|].
    by apply returns_ret.
  - rewrite (point_to_last_None _ _ _ Hkept Hlast). cbn [last fmap option_fmap option_map].
    apply returns_ret. by rewrite Hlabel.
Qed.

(** C10: on a heap where the global name holds the sixteen names and the
    argument holds the lines of a block, [parse_block] returns what the
    parser computes from the lines, and every list that was in the heap is
    as it was: the argument, the list of [ESTIMATE_COLUMNS], and any other;
    so a later call on the heap left behind finds the same sixteen names and
    returns what the parser computes again. *)
Theorem parse_block_changes_no_list
    (upper_table : char -> str) (estimate_columns block : loc)
    (lines : list str) (h : heap) :
  h !! estimate_columns = Some (VStr <$> ESTIMATE_COLUMNS) ->
  h !! block = Some (VStr <$> lines) ->
  exists h',
    parse_block_heap upper_table estimate_columns block h
      = Some (parse_block upper_table lines, h')
    /\ h' !! estimate_columns = Some (VStr <$> ESTIMATE_COLUMNS)
    /\ h' !! block = Some (VStr <$> lines)
    /\ (forall l items, h !! l = Some items -> h' !! l = Some items)
    /\ (forall block' lines',
          h' !! block' = Some (VStr <$> lines') ->
          exists h'',
            parse_block_heap upper_table estimate_columns block' h'
              = Some (parse_block upper_table lines', h'')
            /\ h'' !! estimate_columns = Some (VStr <$> ESTIMATE_COLUMNS)).
Proof.
  intros Hfixed Hblock.
  destruct (parse_block_heap_returns upper_table estimate_columns block lines h
              Hfixed Hblock) as (result & h' & Hrun & Hsub & ->).
  assert (Hfixed' : h' !! estimate_columns = Some (VStr <$> ESTIMATE_COLUMNS))
    by by apply (lookup_weaken h h').
  exists h'. split_and!.
  - done.
  - done.
  - by apply (lookup_weaken h h').
  - intros l items Hl. by apply (lookup_weaken h h').
  - intros block' lines' Hblock'.
    destruct (parse_block_heap_returns upper_table estimate_columns block' lines' h'
                Hfixed' Hblock') as (result & h'' & Hrun' & Hsub' & ->).
    exists h''. split; [done|]. by apply (lookup_weaken h' h'').
Qed.

(** The theorem at an ESTIMATE block with a data row of three cells. *)
Lemma parse_block_changes_no_list_witness :
  exists h',
    parse_block_heap identity_table 1%positive 2%positive heap_with_estimate_block
      = Some (parse_block identity_table
                [lit "| estimate |"; lit "| x | y |"; lit "| 1 | 2 | 3 |"], h')
    /\ h' !! 1%positive = Some (VStr <$> ESTIMATE_COLUMNS).
Proof.
  destruct (parse_block_changes_no_list identity_table 1%positive 2%positive
              [lit "| estimate |"; lit "| x | y |"; lit "| 1 | 2 | 3 |"]
              heap_with_estimate_block)
    as (h' & Hrun & Hfixed & _).
  - reflexivity.
  - reflexivity.
  - exists h'. split; [exact Hrun|exact Hfixed].
Defined.

(* ================================================================== *)
(** * 16. The model on small inputs *)
(* ================================================================== *)

Example splitlines_terminators :
  splitlines (lit "a" ++ [carriage_return; newline] ++ lit "b"
              ++ [newline; newline] ++ lit "c" ++ [newline])
  = [lit "a"; lit "b"; lit ""; lit "c"].
Proof. reflexivity. Qed.

Example split_blocks_two_blocks :
  split_blocks (lit "a" ++ [newline] ++ lit " b " ++ [newline; newline]
                ++ lit "  " ++ [newline] ++ lit "c")
  = [[lit "a"; lit " b "]; [lit "c"]].
Proof. reflexivity. Qed.

Example row_cells_table_row :
  row_cells (lit "| Cell1 | Cell2 |") = [lit "Cell1"; lit "Cell2"].
Proof. reflexivity. Qed.

Example normalize_column_spaces :
  normalize_column (lit "  CONTEXT    SIZE ") = lit "CONTEXT SIZE".
Proof. reflexivity. Qed.

Example reconcile_seventeen_cells :
  reconcile ESTIMATE_COLUMNS 17 = ESTIMATE_COLUMNS ++ [lit "EXTRA_16"].
Proof. reflexivity. Qed.

Example parse_file_two_tables :
  parse_file identity_table (lit "f.txt")
    (lit "| metadata |" ++ [newline] ++ lit "+----+" ++ [newline]
     ++ lit "| PARAMETERS | X |" ++ [newline] ++ lit "| 7.5 B | 1 |" ++ [newline]
     ++ [newline] ++ lit "| metadata |" ++ [newline]
     ++ lit "| X | Z |" ++ [newline] ++ lit "| 2 | 3 |" ++ [newline])
  = Some [(lit "file", lit "f.txt"); (lit "METADATA_PARAMETERS", lit "7.5 B");
          (lit "METADATA_X", lit "2"); (lit "METADATA_Z", lit "3")].
Proof. reflexivity. Qed.

Example float_of_tenth :
  PyFloat.of_decimal (lit "0") (lit "1")
  = PyFloat.Finite (3602879701896397 # 36028797018963968).
Proof. reflexivity. Qed.

Example float_ties_to_even :
  PyFloat.of_Z 9007199254740993 = PyFloat.Finite 9007199254740992.
Proof. reflexivity. Qed.

Example parse_parameters_parts :
  parse_parameters identity_table (Some (CStr (lit "5.K"))) = None
  /\ parse_parameters identity_table (Some (CStr (lit "500 kB")))
     = Some (PyFloat.Finite 500000)
  /\ parse_parameters identity_table (Some CNaN) = None.
Proof. split_and!; reflexivity. Qed.

(** The end-to-end example: the file of 7.5 B is read first and written
    second, and the derived column stands right of METADATA_PARAMETERS. *)
Example main_two_files :
  written_cells (main identity_table [file_7500M; file_500M])
  = Some ([lit "file"; METADATA_PARAMETERS; MODEL_SIZE_CATEGORY; lit "METADATA_X"],
          [[CStr (lit "b.txt"); CStr (lit "500 M"); CStr (lit "Small (<1B)");
            CStr (lit "2")];
           [CStr (lit "a.txt"); CStr (lit "7.5 B"); CStr (lit "Medium (1-10B)");
            CStr (lit "2")]]).
Proof. vm_compute. reflexivity. Qed.

(* ================================================================== *)
(** * 17. More on the block splitter and the block parser *)
(* ================================================================== *)

Lemma split_blocks_step_concat st line :
  Forall (fun c => is_linebreak c = false) line ->
  concat (split_blocks_step st line).1 ++ (split_blocks_step st line).2
  = concat st.1 ++ st.2 ++ (if is_blank line then [] else [line]).
Proof.
  destruct st as [blocks current]. intros Hline. unfold split_blocks_step, is_blank.
  destruct (bool_decide (strip line = [])); cbn [fst snd].
  - destruct current as [|l current]; cbn [fst snd].
    + done.
    + rewrite concat_app. simpl. by rewrite !app_nil_r.
  - by rewrite rstrip_newline_line.
Qed.

Lemma split_blocks_loop_concat lines st :
  Forall (Forall (fun c => is_linebreak c = false)) lines ->
  concat (fold_left split_blocks_step lines st).1
    ++ (fold_left split_blocks_step lines st).2
  = concat st.1 ++ st.2 ++ List.filter (fun line => negb (is_blank line)) lines.
Proof.
  intros H. revert st. induction H as [|line lines Hl _ IH]; intros st; cbn [fold_left].
  - by rewrite app_nil_r.
  - rewrite IH, app_assoc, split_blocks_step_concat by done. cbn [List.filter].
    destruct (is_blank line); simpl; by rewrite <- ?app_assoc, ?app_nil_r.
Qed.

(** X1: the blocks of a text, one after the other, are the non-blank lines
    of the text in their order: no such line is lost, doubled or moved; and
    no block is empty. *)
Theorem split_blocks_keeps_lines (text : str) :
  concat (split_blocks text)
  = List.filter (fun line => negb (is_blank line)) (splitlines text)
  /\ Forall (fun block => block <> []) (split_blocks text).
Proof.
  split.
  - pose proof (split_blocks_loop_concat (splitlines text) ([], [])
                  (splitlines_no_linebreak text)) as H.
    unfold split_blocks.
    destruct (fold_left split_blocks_step (splitlines text) ([], []))
      as [blocks current]. cbn [fst snd concat app] in H. rewrite <- H.
    destruct current as [|l current]; [by rewrite app_nil_r|].
    rewrite concat_app. simpl. by rewrite app_nil_r.
  - eapply Forall_impl; [apply split_blocks_clean|]. by intros block [? _].
Qed.

Lemma block_rows_idem block : block_rows (block_rows block) = block_rows block.
Proof.
  unfold block_rows. induction block as [|line block IH]; simpl; [done|].
  destruct (startswith pipe line) eqn:E; simpl; [|done]. by rewrite E, IH.
Qed.

Lemma block_rows_nil block :
  block_rows block = [] <-> Forall (fun line => startswith pipe line = false) block.
Proof.
  unfold block_rows. induction block as [|line block IH]; simpl.
  - split; [constructor|done].
  - destruct (startswith pipe line) eqn:E.
    + split; [done|]. intros H. inversion_clear H. congruence.
    + rewrite IH. split; [by constructor|by inversion_clear 1].
Qed.

(** X2: the lines of a block that do not start with the delimiter play no
    part: [parse_block] returns on the block what it returns on its
    candidate lines alone; and the label is absent exactly when no line of
    the block starts with the delimiter, the values mapping being empty
    then. *)
Theorem parse_block_reads_candidate_lines
    (upper_table : char -> str) (block : list str) :
  parse_block upper_table block = parse_block upper_table (block_rows block)
  /\ ((parse_block upper_table block).1 = None
      <-> Forall (fun line => startswith pipe line = false) block)
  /\ ((parse_block upper_table block).1 = None ->
      parse_block upper_table block = (None, [])).
Proof.
  split_and!.
  - unfold parse_block, block_columns, block_normalized_columns, block_label,
      block_table_rows, block_parsed.
    by rewrite !block_rows_idem.
  - rewrite <- block_rows_nil. unfold parse_block.
    destruct (block_rows block); [done|].
    by destruct (last (block_table_rows block)).
  - unfold parse_block. destruct (block_rows block); [done|].
    by destruct (last (block_table_rows block)).
Qed.

(** The theorem at a block with a rule line between its rows. *)
Lemma parse_block_reads_candidate_lines_witness :
  parse_block identity_table [lit "+---+"; lit "text"] = (None, []).
Proof.
  apply (proj2 (proj2 (parse_block_reads_candidate_lines identity_table
                         [lit "+---+"; lit "text"]))).
  reflexivity.
Defined.

Lemma dict_of_pairs_length_le pairs :
  (length (dict_of_pairs pairs) <= length pairs)%nat.
Proof.
  change (dict_of_pairs pairs) with (dict_update [] pairs).
  assert (Hnd : NoDup (dict_keys (dict_update [] pairs))).
  { apply dict_update_keys_NoDup. constructor. }
  assert (Hsub : dict_keys (dict_update [] pairs) ⊆+ pairs.*1).
  { apply NoDup_submseteq; [done|]. intros key Hkey.
    apply dict_update_keys in Hkey as [?%elem_of_nil|?]; done. }
  apply submseteq_length in Hsub. unfold dict_keys in Hsub.
  by rewrite !length_map in Hsub.
Qed.

Lemma dict_of_pairs_nil pairs : dict_of_pairs pairs = [] <-> pairs = [].
Proof.
  split; [|by intros ->]. intros H. destruct pairs as [|[k v] pairs]; [done|].
  assert (Hk : k ∈ dict_keys (dict_update [] ((k, v) :: pairs))).
  { apply dict_update_keys. right. apply list_elem_of_here. }
  change (dict_update [] ((k, v) :: pairs)) with (dict_of_pairs ((k, v) :: pairs)) in Hk.
  rewrite H in Hk. by apply elem_of_nil in Hk.
Qed.

Lemma table_row_cells block row :
  row ∈ block_table_rows block -> (2 <= length row)%nat.
Proof.
  unfold block_table_rows. intros H%list_elem_of_In%filter_In.
  destruct H as [_ H]. apply Nat.ltb_lt in H. lia.
Qed.

Lemma last_elem_of {A} (l : list A) x : last l = Some x -> x ∈ l.
Proof.
  rewrite last_Some. intros [l' ->]. apply elem_of_app. right. apply list_elem_of_here.
Qed.

Section BlockResults.

Variable upper_table : char -> str.

(** X3: the values mapping of a block is empty exactly when no row after
    the first has more than one cell (a block of a label only, or of no
    candidate line at all); otherwise the data row has at least two cells
    and the mapping at least one entry and at most one per data cell. *)
Theorem parse_block_values_empty (block : list str) :
  ((parse_block upper_table block).2 = [] <-> block_table_rows block = [])
  /\ (forall data_row,
        last (block_table_rows block) = Some data_row ->
        (2 <= length data_row)%nat
        /\ (parse_block upper_table block).1 = Some (block_label upper_table block)
        /\ (1 <= length (parse_block upper_table block).2 <= length data_row)%nat).
Proof.
  assert (Hrow : forall data_row,
            last (block_table_rows block) = Some data_row ->
            (2 <= length data_row)%nat
            /\ (parse_block upper_table block).1 = Some (block_label upper_table block)
            /\ (1 <= length (parse_block upper_table block).2 <= length data_row)%nat).
  { intros data_row Hlast.
    assert (Hlen : (2 <= length data_row)%nat).
    { apply (table_row_cells block). by apply last_elem_of. }
    rewrite (parse_block_data_row upper_table block data_row Hlast). cbn [fst snd].
    remember (combine (block_columns upper_table block data_row) data_row)
      as pairs eqn:Hp.
    assert (Hpairs : length pairs = length data_row).
    { subst pairs. unfold block_columns. rewrite length_combine, reconcile_length. lia. }
    clear Hp. split_and!; [done|done| |].
    - destruct (dict_of_pairs pairs) as [|kv d] eqn:Hd; [|simpl; lia].
      pose proof (proj1 (dict_of_pairs_nil pairs) Hd) as Hnil.
      rewrite Hnil in Hpairs. simpl in Hpairs. lia.
    - rewrite <- Hpairs. apply dict_of_pairs_length_le. }
  split; [|exact Hrow]. split.
  - intros Hempty. destruct (last (block_table_rows block)) as [data_row|] eqn:Hlast.
    + destruct (Hrow data_row eq_refl) as (_ & _ & Hlen & _).
      rewrite Hempty in Hlen. simpl in Hlen. lia.
    + by apply last_None.
  - intros Hrows. unfold parse_block. rewrite Hrows. simpl.
    by destruct (block_rows block).
Qed.

(** X4: in a block of another label than ESTIMATE, of the rows of more than
    one cell after the first only the first and the last count: the first
    gives the names, the last the cells, and what stands between them is not
    read; when there is one such row only, it is both, and each of its cells
    is filed under its own normalised text. *)
Theorem parse_block_reads_first_and_last_row
    (block : list str) (header : list str) (middle : list (list str))
    (data_row : list str) :
  block_label upper_table block <> lit "ESTIMATE" ->
  (block_table_rows block = header :: middle ++ [data_row] ->
   parse_block upper_table block
   = (Some (block_label upper_table block),
      dict_of_pairs
        (combine (reconcile (map normalize_column header) (length data_row))
                 data_row)))
  /\ (block_table_rows block = [header] ->
      parse_block upper_table block
      = (Some (block_label upper_table block),
         dict_of_pairs (combine (map normalize_column header) header))).
Proof.
  intros Hlabel.
  assert (Hnames : forall rows, block_table_rows block = header :: rows ->
                   block_normalized_columns upper_table block
                   = map normalize_column header).
  { intros rows Hrows. unfold block_normalized_columns.
    by rewrite bool_decide_eq_false_2, Hrows by done. }
  split.
  - intros Hrows.
    assert (Hlast : last (block_table_rows block) = Some data_row).
    { rewrite Hrows, app_comm_cons. apply last_snoc. }
    rewrite (parse_block_data_row upper_table block data_row Hlast).
    unfold block_columns. by rewrite (Hnames _ Hrows).
  - intros Hrows.
    assert (Hlast : last (block_table_rows block) = Some header) by by rewrite Hrows.
    rewrite (parse_block_data_row upper_table block header Hlast).
    unfold block_columns. rewrite (Hnames _ Hrows).
    unfold reconcile. rewrite length_map, Nat.ltb_irrefl. done.
Qed.

(** X5: when the data row has no more cells than there are normalised
    names, the names beyond the data row are dropped: the columns are the
    first names, one per data cell, and the keys of the values mapping are
    among them. *)
Theorem surplus_columns_are_dropped (block : list str) (data_row : list str) :
  last (block_table_rows block) = Some data_row ->
  (length data_row <= length (block_normalized_columns upper_table block))%nat ->
  block_columns upper_table block data_row
  = firstn (length data_row) (block_normalized_columns upper_table block)
  /\ forall key,
       key ∈ dict_keys (parse_block upper_table block).2
       <-> key ∈ firstn (length data_row) (block_normalized_columns upper_table block).
Proof.
  intros Hlast Hle.
  assert (Hcols : block_columns upper_table block data_row
                  = firstn (length data_row) (block_normalized_columns upper_table block))
    by by apply reconcile_shorter.
  split; [done|]. intros key.
  rewrite (parse_block_data_row upper_table block data_row Hlast). cbn [snd].
  change (dict_of_pairs ?p) with (dict_update [] p).
  rewrite dict_update_keys, combine_keys, Hcols.
  - split; [by intros [?%elem_of_nil|?]|by right].
  - apply reconcile_length.
Qed.

End BlockResults.

(** The theorem at a label-only block and at a block of two rows. *)
Lemma parse_block_values_empty_witness :
  (parse_block identity_table [lit "| T |"; lit "| one cell |"]).2 = []
  /\ (1 <= length (parse_block identity_table
                     [lit "| T |"; lit "| a | b |"; lit "| 1 | 2 |"]).2 <= 2)%nat.
Proof.
  split.
  - apply (proj1 (parse_block_values_empty identity_table
                    [lit "| T |"; lit "| one cell |"])).
    reflexivity.
  - apply (proj2 (parse_block_values_empty identity_table
                    [lit "| T |"; lit "| a | b |"; lit "| 1 | 2 |"])
             [lit "1"; lit "2"]).
    reflexivity.
Defined.

(** The theorem at a block with a row between the names and the cells. *)
Lemma parse_block_reads_first_and_last_row_witness :
  parse_block identity_table
    [lit "| T |"; lit "| a | b |"; lit "| - | - |"; lit "| 1 | 2 |"]
  = (Some (lit "T"), [(lit "a", lit "1"); (lit "b", lit "2")]).
Proof.
  apply (proj1 (parse_block_reads_first_and_last_row identity_table
                  [lit "| T |"; lit "| a | b |"; lit "| - | - |"; lit "| 1 | 2 |"]
                  [lit "a"; lit "b"] [[lit "-"; lit "-"]] [lit "1"; lit "2"]
                  ltac:(discriminate))).
  reflexivity.
Defined.

(** The theorem at a block of three names and two cells. *)
Lemma surplus_columns_are_dropped_witness :
  block_columns identity_table
    [lit "| T |"; lit "| a | b | c |"; lit "| 1 | 2 |"] [lit "1"; lit "2"]
  = [lit "a"; lit "b"].
Proof.
  apply (proj1 (surplus_columns_are_dropped identity_table
                  [lit "| T |"; lit "| a | b | c |"; lit "| 1 | 2 |"]
                  [lit "1"; lit "2"] eq_refl ltac:(vm_compute; lia))).
Defined.

Lemma take_while_nonspace_all w rest :
  Forall (fun c => is_space c = false) w ->
  (forall c tail, rest = c :: tail -> is_space c = true) ->
  take_while (fun d => negb (is_space d)) (w ++ rest) = w.
Proof.
  intros Hw Hrest. rewrite take_while_app_all.
  - rewrite take_while_stop, app_nil_r; [done|].
    intros c tail Hc. by rewrite (Hrest c tail Hc).
  - eapply Forall_impl; [exact Hw|]. by intros c ->.
Qed.

Lemma split_ws_skip_word w rest :
  Forall (fun c => is_space c = false) w -> split_ws_skip (w ++ rest) = split_ws_skip rest.
Proof. induction 1 as [|c w Hc _ IH]; simpl; [done|]. by rewrite Hc. Qed.

Lemma split_ws_skip_space rest :
  (forall c tail, rest = c :: tail -> is_space c = true) ->
  split_ws_skip rest = split_ws rest.
Proof. destruct rest as [|c tail]; simpl; [done|]. intros H. by rewrite (H c tail). Qed.

(** A word followed by nothing or by whitespace is the first piece. *)
Lemma split_ws_word w rest :
  is_word w -> (forall c tail, rest = c :: tail -> is_space c = true) ->
  split_ws (w ++ rest) = w :: split_ws rest.
Proof.
  intros [Hne Hw] Hrest. destruct w as [|c w]; [done|].
  inversion_clear Hw as [|? ? Hc Hw']. cbn [app split_ws]. rewrite Hc.
  rewrite take_while_nonspace_all, split_ws_skip_word, split_ws_skip_space; done.
Qed.

Lemma take_while_nonspace_word s :
  Forall (fun c => is_space c = false) (take_while (fun d => negb (is_space d)) s).
Proof.
  eapply Forall_impl; [apply take_while_all|]. intros c H. by apply negb_true_iff.
Qed.

Lemma split_ws_words s : Forall is_word (split_ws s) /\ Forall is_word (split_ws_skip s).
Proof.
  induction s as [|c s [IH1 IH2]]; simpl; [by split|].
  destruct (is_space c) eqn:Hc; [by split|]. split; [|done].
  constructor; [|done]. split; [done|].
  constructor; [done|apply take_while_nonspace_word].
Qed.

Lemma join_space_words words :
  Forall is_word words -> split_ws (join (lit " ") words) = words.
Proof.
  induction 1 as [|w words Hw Hwords IH]; [done|].
  destruct words as [|w' words].
  - simpl. rewrite <- (app_nil_r w) at 1. by rewrite split_ws_word.
  - rewrite join_cons by done. rewrite split_ws_word.
    + f_equal. change (lit " " ++ ?s) with (32%N :: s). cbn [split_ws].
      change (is_space 32) with true. cbv iota. exact IH.
    + done.
    + by intros c tail [= <- _].
Qed.

Lemma split_ws_nil s : split_ws s = [] <-> Forall (fun c => is_space c = true) s.
Proof.
  induction s as [|c s IH]; simpl; [by split|].
  destruct (is_space c) eqn:Hc.
  - rewrite IH. split; [by constructor|by inversion_clear 1].
  - split; [done|]. inversion_clear 1. congruence.
Qed.

Lemma join_nil_words words :
  Forall is_word words -> join (lit " ") words = [] -> words = [].
Proof.
  destruct 1 as [|w words [Hne _] _]; [done|].
  destruct w as [|c w]; [done|]. by destruct words.
Qed.

Lemma split_ws_skip_drop s :
  split_ws_skip s = split_ws (drop_while (fun d => negb (is_space d)) s).
Proof.
  induction s as [|c s IH]; [done|]. cbn [split_ws_skip drop_while].
  destruct (is_space c) eqn:Hc; cbn [negb]; [|done].
  cbn [split_ws]. by rewrite Hc.
Qed.

Lemma words_of_space c s words :
  is_space c = true -> words_of s words -> words_of (c :: s) words.
Proof.
  intros Hc [s' Hs|ws w rest words' Hws Hw Hrest Hwords].
  - apply words_of_blank. by constructor.
  - apply (words_of_word (c :: ws) w rest words'); [by constructor|done..].
Qed.

Lemma drop_while_length p s : (length (drop_while p s) <= length s)%nat.
Proof.
  induction s as [|c s IH]; simpl; [done|]. destruct (p c); simpl; lia.
Qed.

(** [split] gives the words of the string. *)
Lemma split_ws_words_of s : words_of s (split_ws s).
Proof.
  remember (length s) as n eqn:Hn. revert s Hn.
  induction n as [n IH] using lt_wf_ind. intros [|c s] Hn.
  - apply words_of_blank. constructor.
  - cbn [split_ws]. simpl in Hn. destruct (is_space c) eqn:Hc.
    + apply words_of_space; [done|]. by apply (IH (length s)); [lia|].
    + rewrite split_ws_skip_drop.
      set (nonspace := fun d => negb (is_space d)).
      pose proof (take_drop_while nonspace s) as Hsplit.
      rewrite <- Hsplit at 1.
      apply (words_of_word [] (c :: take_while nonspace s) (drop_while nonspace s)).
      * constructor.
      * split; [done|]. constructor; [done|apply take_while_nonspace_word].
      * intros d tail Hd. apply drop_while_head in Hd. by apply negb_false_iff.
      * apply (IH (length (drop_while nonspace s))); [|done].
        pose proof (drop_while_length nonspace s). lia.
Qed.

Lemma words_of_head ws w rest :
  Forall (fun c => is_space c = true) ws -> is_word w ->
  (forall c tail, rest = c :: tail -> is_space c = true) ->
  take_while is_space (ws ++ w ++ rest) = ws
  /\ take_while (fun d => negb (is_space d)) (w ++ rest) = w.
Proof.
  intros Hws [Hne Hw] Hrest. split.
  - rewrite take_while_app_all by done. destruct w as [|c w]; [done|].
    inversion_clear Hw as [|? ? Hc _]. simpl. by rewrite Hc, app_nil_r.
  - by apply take_while_nonspace_all.
Qed.

(** A string has one list of words only. *)
Lemma words_of_unique s words words' :
  words_of s words -> words_of s words' -> words = words'.
Proof.
  intros H. revert words'.
  induction H as [s Hs|ws w rest words Hws Hw Hrest Hwords IH]; intros words' H'.
  - inversion H' as [|ws' w' rest' ? Hws' [Hne' Hw'] Hrest' Hwords' Heq]; [done|].
    subst s. apply Forall_app in Hs as [_ Hs]. apply Forall_app in Hs as [Hs _].
    destruct w' as [|c w']; [done|].
    inversion_clear Hs as [|? ? Hc _]. inversion_clear Hw' as [|? ? Hc' _]. congruence.
  - inversion H' as [s' Hs Heq|ws' w' rest' ? Hws' Hw' Hrest' Hwords' Heq].
    + destruct Hw as [Hne Hw]. apply Forall_app in Hs as [_ Hs].
      apply Forall_app in Hs as [Hs _]. destruct w as [|c w]; [done|].
      inversion_clear Hs as [|? ? Hc _]. inversion_clear Hw as [|? ? Hc' _]. congruence.
    + destruct (words_of_head ws w rest Hws Hw Hrest) as [H1 H2].
      destruct (words_of_head ws' w' rest' Hws' Hw' Hrest') as [H1' H2'].
      assert (Hwseq : ws' = ws) by (by rewrite <- H1', Heq, H1).
      subst ws'. apply app_inv_head in Heq.
      assert (Hweq : w' = w) by (by rewrite <- H2', Heq, H2).
      subst w'. apply app_inv_head in Heq. subst rest'.
      f_equal. by apply IH.
Qed.

(** X6: normalising a column name a second time changes nothing; the
    normalised name is the words of the name joined by single spaces, the
    words being read off the name itself: the runs without whitespace
    between its whitespace; and it is empty exactly when the name is nothing
    but whitespace. *)
Theorem normalize_column_idempotent (col : str) :
  normalize_column (normalize_column col) = normalize_column col
  /\ (exists words,
        words_of col words /\ Forall is_word words
        /\ (forall words', words_of col words' -> words' = words)
        /\ normalize_column col = join (lit " ") words
        /\ words_of (normalize_column col) words)
  /\ (normalize_column col = [] <-> Forall (fun c => is_space c = true) col).
Proof.
  pose proof (proj1 (split_ws_words col)) as Hwords.
  split_and!.
  - unfold normalize_column at 1 2. by rewrite join_space_words.
  - exists (split_ws col). split_and!; [apply split_ws_words_of|done| |done|].
    { intros words' H'. by apply (words_of_unique col); [|apply split_ws_words_of]. }
    assert (H : split_ws (normalize_column col) = split_ws col).
    { unfold normalize_column. by rewrite join_space_words. }
    rewrite <- H. apply split_ws_words_of.
  - rewrite <- split_ws_nil. unfold normalize_column. split.
    + by apply join_nil_words.
    + by intros ->.
Qed.

(* ================================================================== *)
(** * 18. More on the file records *)
(* ================================================================== *)

Lemma dict_update_get_other d pairs key :
  key ∉ pairs.*1 -> dict_get (dict_update d pairs) key = dict_get d key.
Proof.
  revert d. induction pairs as [|[k v] pairs IH]; intros d Hkey; [done|].
  cbn [fmap list_fmap fst] in Hkey. apply not_elem_of_cons in Hkey as [Hne Hkey].
  change (dict_update d ((k, v) :: pairs)) with (dict_update (dict_set d k v) pairs).
  rewrite IH, dict_get_set by done. by rewrite bool_decide_eq_false_2 by congruence.
Qed.

Lemma dict_update_keys_prefix d pairs :
  dict_keys d `prefix_of` dict_keys (dict_update d pairs).
Proof.
  revert d. induction pairs as [|[k v] pairs IH]; intros d; [done|].
  change (dict_update d ((k, v) :: pairs)) with (dict_update (dict_set d k v) pairs).
  transitivity (dict_keys (dict_set d k v)); [|apply IH].
  rewrite dict_keys_set. case_bool_decide; [done|]. by apply prefix_app_r.
Qed.

Lemma dict_get_lookup d key value :
  dict_get d key = Some value -> exists i, d !! i = Some (key, value).
Proof.
  induction d as [|[k v] d IH]; cbn [dict_get]; [done|].
  case_bool_decide as Hk.
  - intros [= ->]. subst k. by exists 0%nat.
  - intros H. destruct (IH H) as [i Hi]. by exists (S i).
Qed.

Lemma prefix_key_inj label col col' :
  label ++ lit "_" ++ col = label ++ lit "_" ++ col' -> col = col'.
Proof. intros H. by apply app_inv_head in H; apply app_inv_head in H. Qed.

Lemma prefix_key_not_file label col : label ++ lit "_" ++ col <> lit "file".
Proof.
  intros H. assert (Hin : 95%N ∈ lit "file").
  { rewrite <- H. apply elem_of_app. right. apply list_elem_of_here. }
  apply list_elem_of_In in Hin. simpl in Hin.
  repeat (destruct Hin as [Hin|Hin]; [discriminate Hin|]). done.
Qed.

Lemma prefixed_keys label values key :
  key ∈ (prefixed label values).*1
  <-> exists col, col ∈ dict_keys values /\ key = label ++ lit "_" ++ col.
Proof.
  unfold prefixed, dict_keys. rewrite !list_elem_of_In.
  change (fmap fst) with (map (@fst str str)). rewrite map_map. cbn [fst].
  rewrite in_map_iff. split.
  - intros ([k v] & <- & Hin). exists k. split; [|done].
    apply list_elem_of_In, in_map_iff. by exists (k, v).
  - intros (col & Hcol%list_elem_of_In%in_map_iff & ->).
    destruct Hcol as ([k v] & <- & Hin). by exists (k, v).
Qed.

Lemma dict_keys_lookup (d : dict) i key value :
  d !! i = Some (key, value) -> dict_keys d !! i = Some key.
Proof.
  revert i. induction d as [|[k v] d IH]; intros [|i]; try done.
  - by intros [= -> _].
  - apply IH.
Qed.

Lemma prefixed_lookup label (values : dict) i key value :
  prefixed label values !! i = Some (key, value)
  <-> exists col, values !! i = Some (col, value) /\ key = label ++ lit "_" ++ col.
Proof.
  revert i. induction values as [|[k v] values IH]; intros i.
  - split; [done|]. by intros (col & ? & _).
  - destruct i as [|i]; [|apply IH]. simpl. split.
    + intros [= <- <-]. by exists k.
    + by intros (col & [= <- <-] & ->).
Qed.

Section FileRecords.

Variable upper_table : char -> str.

Lemma parse_block_keys_NoDup block :
  NoDup (dict_keys (parse_block upper_table block).2).
Proof.
  unfold parse_block. destruct (block_rows block); [constructor|].
  destruct (last (block_table_rows block)); [|constructor].
  apply dict_update_keys_NoDup. constructor.
Qed.

Lemma merge_block_skip record block :
  (parse_block upper_table block).1 = None
  \/ (parse_block upper_table block).1 = Some []
  \/ (parse_block upper_table block).2 = [] ->
  merge_block upper_table record block = record.
Proof.
  unfold merge_block. destruct (parse_block upper_table block) as [[[|c label]|] values];
    cbn [fst snd]; try done.
  intros [?|[?| ->]]; done.
Qed.

Lemma merge_block_update record block label :
  (parse_block upper_table block).1 = Some label -> label <> [] ->
  merge_block upper_table record block
  = dict_update record (prefixed label (parse_block upper_table block).2).
Proof.
  unfold merge_block. destruct (parse_block upper_table block) as [[l|] values];
    cbn [fst snd]; [|done].
  intros [= ->] Hne. destruct label as [|c label]; [done|].
  destruct values as [|kv values]; [done|].
  unfold dict_update, prefixed. generalize (kv :: values). intros vs. revert record.
  induction vs as [|kv' vs IH]; intros record; [done|]. cbn [map fold_left]. apply IH.
Qed.

Lemma merge_block_keys record block key :
  key ∈ dict_keys (merge_block upper_table record block)
  <-> key ∈ dict_keys record \/ block_provides upper_table block key.
Proof.
  unfold block_provides.
  destruct ((parse_block upper_table block).1) as [label|] eqn:Hlabel.
  - destruct (decide (label = [])) as [->|Hne].
    + rewrite merge_block_skip by auto. split; [by left|].
      intros [?|(label & col & [= <-] & ? & _)]; done.
    + rewrite (merge_block_update record block label Hlabel Hne).
      rewrite dict_update_keys, prefixed_keys. split.
      * intros [?|(col & Hcol & ->)]; [by left|right]. by exists label, col.
      * intros [?|(label' & col & [= <-] & _ & Hcol & ->)]; [by left|right].
        by exists col.
  - rewrite merge_block_skip by auto. split; [by left|].
    intros [?|(label & col & [=] & _)]. done.
Qed.

Lemma merge_block_NoDup record block :
  NoDup (dict_keys record) -> NoDup (dict_keys (merge_block upper_table record block)).
Proof.
  intros H. destruct ((parse_block upper_table block).1) as [label|] eqn:Hlabel.
  - destruct (decide (label = [])) as [->|Hne].
    + by rewrite merge_block_skip by auto.
    + rewrite (merge_block_update record block label Hlabel Hne).
      by apply dict_update_keys_NoDup.
  - by rewrite merge_block_skip by auto.
Qed.

Lemma merge_block_file record block name :
  dict_get record (lit "file") = Some name ->
  dict_get (merge_block upper_table record block) (lit "file") = Some name.
Proof.
  intros H. destruct ((parse_block upper_table block).1) as [label|] eqn:Hlabel.
  - destruct (decide (label = [])) as [->|Hne].
    + by rewrite merge_block_skip by auto.
    + rewrite (merge_block_update record block label Hlabel Hne).
      rewrite dict_update_get_other; [done|].
      intros (col & _ & Hcol)%prefixed_keys. by apply (prefix_key_not_file label col).
  - by rewrite merge_block_skip by auto.
Qed.

Lemma merge_block_prefix record block :
  dict_keys record `prefix_of` dict_keys (merge_block upper_table record block).
Proof.
  destruct ((parse_block upper_table block).1) as [label|] eqn:Hlabel.
  - destruct (decide (label = [])) as [->|Hne].
    + by rewrite merge_block_skip by auto.
    + rewrite (merge_block_update record block label Hlabel Hne).
      apply dict_update_keys_prefix.
  - by rewrite merge_block_skip by auto.
Qed.

(** X8: a block that has no label, an empty label or no values leaves the
    record as it is.  Any other block writes each of its columns under the
    key label, underscore, column name: that key then holds the value of
    this block, whatever it held before; every other key holds what it held;
    and the keys that were in the record stay first, in their order. *)
Theorem merge_block_last_write_wins (record : dict) (block : list str) :
  ((parse_block upper_table block).1 = None
   \/ (parse_block upper_table block).1 = Some []
   \/ (parse_block upper_table block).2 = [] ->
   merge_block upper_table record block = record)
  /\ (forall label,
        (parse_block upper_table block).1 = Some label -> label <> [] ->
        (forall col value,
           dict_get (parse_block upper_table block).2 col = Some value ->
           dict_get (merge_block upper_table record block) (label ++ lit "_" ++ col)
           = Some value)
        /\ (forall key,
              ~ block_provides upper_table block key ->
              dict_get (merge_block upper_table record block) key
              = dict_get record key))
  /\ dict_keys record `prefix_of` dict_keys (merge_block upper_table record block).
Proof.
  split_and!.
  - apply merge_block_skip.
  - intros label Hlabel Hne.
    rewrite (merge_block_update record block label Hlabel Hne).
    set (values := (parse_block upper_table block).2).
    pose proof (parse_block_keys_NoDup block) as Hnd. fold values in Hnd. split.
    + intros col value Hget. destruct (dict_get_lookup _ _ _ Hget) as [i Hi].
      apply (dict_update_get record _ i).
      * apply prefixed_lookup. by exists col.
      * intros j v Hij (col' & Hvj & Hk%prefix_key_inj)%prefixed_lookup. subst col'.
        assert (Heq : i = j); [|lia].
        apply (NoDup_lookup (dict_keys values) i j col Hnd).
        -- apply (dict_keys_lookup values i col value Hi).
        -- apply (dict_keys_lookup values j col v Hvj).
    + intros key Hkey. apply dict_update_get_other.
      intros (col & Hcol & ->)%prefixed_keys. apply Hkey. by exists label, col.
  - apply merge_block_prefix.
Qed.

Lemma merge_blocks_keys blocks record key :
  key ∈ dict_keys (fold_left (merge_block upper_table) blocks record)
  <-> key ∈ dict_keys record
      \/ exists block, block ∈ blocks /\ block_provides upper_table block key.
Proof.
  revert record. induction blocks as [|block blocks IH]; intros record; cbn [fold_left].
  - split; [by left|]. by intros [?|(block & ?%elem_of_nil & _)].
  - rewrite IH, merge_block_keys. split.
    + intros [[?|?]|(b & Hb & ?)]; [by left|right|right].
      * exists block. split; [apply list_elem_of_here|done].
      * exists b. split; [by apply list_elem_of_further|done].
    + intros [?|(b & [->|Hb]%elem_of_cons & ?)]; [by left; left|by left; right|right].
      by exists b.
Qed.

Lemma merge_blocks_invariant blocks record name :
  NoDup (dict_keys record) -> dict_get record (lit "file") = Some name ->
  NoDup (dict_keys (fold_left (merge_block upper_table) blocks record))
  /\ dict_get (fold_left (merge_block upper_table) blocks record) (lit "file")
     = Some name
  /\ dict_keys record
     `prefix_of` dict_keys (fold_left (merge_block upper_table) blocks record).
Proof.
  revert record. induction blocks as [|block blocks IH]; intros record Hnd Hfile;
    cbn [fold_left]; [done|].
  destruct (IH (merge_block upper_table record block)) as (H1 & H2 & H3).
  - by apply merge_block_NoDup.
  - by apply merge_block_file.
  - split_and!; [done|done|]. etrans; [apply merge_block_prefix|done].
Qed.

Lemma parse_file_some name text :
  strip text <> [] ->
  parse_file upper_table name text
  = Some (fold_left (merge_block upper_table) (split_blocks text) [(lit "file", name)]).
Proof. intros H. unfold parse_file. by destruct (strip text). Qed.

(** X7: [parse_file] gives no record exactly when the text is empty or
    whitespace only.  A record starts with the key ["file"], which holds the
    name of the file and is never overwritten by a table; its keys are
    pairwise distinct; and its other keys are exactly the keys label,
    underscore, column name that the blocks of the text provide. *)
Theorem parse_file_record (name text : str) :
  (parse_file upper_table name text = None <-> strip text = [])
  /\ forall record,
       parse_file upper_table name text = Some record ->
       head record = Some (lit "file", name)
       /\ dict_get record (lit "file") = Some name
       /\ NoDup (dict_keys record)
       /\ forall key,
            key ∈ dict_keys record
            <-> key = lit "file"
                \/ exists block,
                     block ∈ split_blocks text
                     /\ block_provides upper_table block key.
Proof.
  split.
  - unfold parse_file. by destruct (strip text).
  - intros record Hrecord.
    assert (Htext : strip text <> []).
    { intros H. unfold parse_file in Hrecord. by rewrite H in Hrecord. }
    rewrite parse_file_some in Hrecord by done. injection Hrecord as <-.
    destruct (merge_blocks_invariant (split_blocks text) [(lit "file", name)] name)
      as (Hnd & Hfile & Hprefix); [apply NoDup_singleton|done|].
    split_and!; [|done|done|].
    + destruct Hprefix as [keys Hkeys]. simpl in Hkeys.
      destruct (fold_left _ _ _) as [|[k v] record] eqn:Hfold; [done|].
      cbn [dict_keys map fst] in Hkeys. injection Hkeys as -> _.
      cbn [dict_get] in Hfile. rewrite bool_decide_eq_true_2 in Hfile by done.
      by injection Hfile as ->.
    + intros key. rewrite merge_blocks_keys. cbn [dict_keys map fst].
      by rewrite list_elem_of_singleton.
Qed.

End FileRecords.

(** The theorem at a record whose METADATA table is written twice. *)
Lemma merge_block_last_write_wins_witness :
  dict_get
    (merge_block identity_table
       [(lit "file", lit "f.txt"); (lit "METADATA_X", lit "old")]
       [lit "| metadata |"; lit "| X | Y |"; lit "| 1 | 2 |"])
    (lit "METADATA_X")
  = Some (lit "1").
Proof.
  destruct (merge_block_last_write_wins identity_table
              [(lit "file", lit "f.txt"); (lit "METADATA_X", lit "old")]
              [lit "| metadata |"; lit "| X | Y |"; lit "| 1 | 2 |"])
    as (_ & H & _).
  destruct (H (lit "METADATA") eq_refl ltac:(discriminate)) as [Hset _].
  apply (Hset (lit "X") (lit "1")). reflexivity.
Defined.

(** The theorem at a file of one table. *)
Lemma parse_file_record_witness :
  exists record,
    parse_file identity_table (lit "f.txt")
      (lit "| T |" ++ [newline] ++ lit "| a | b |" ++ [newline] ++ lit "| 1 | 2 |")
    = Some record
    /\ dict_get record (lit "file") = Some (lit "f.txt").
Proof.
  eexists. split; [reflexivity|].
  apply (proj2 (parse_file_record identity_table (lit "f.txt")
                  (lit "| T |" ++ [newline] ++ lit "| a | b |" ++ [newline]
                   ++ lit "| 1 | 2 |")) _ eq_refl).
Defined.

(* ================================================================== *)
(** * 19. More on the driver *)
(* ================================================================== *)

Section DriverRuns.

Variable upper_table : char -> str.

Lemma parse_file_nonempty name text : parse_file upper_table name text <> Some [].
Proof.
  unfold parse_file. destruct (strip text) as [|c t]; [done|].
  destruct (merge_blocks_invariant upper_table (split_blocks text)
              [(lit "file", name)] name) as (_ & Hfile & _);
    [apply NoDup_singleton|done|].
  intros [= H]. by rewrite H in Hfile.
Qed.

Lemma load_file_cases st file :
  load_file upper_table st file
  = match parse_file upper_table file.1 file.2 with
    | None => st
    | Some record => (st.1 ++ [record], track_columns st.2 record)
    end.
Proof.
  destruct st as [records order]. unfold load_file.
  pose proof (parse_file_nonempty file.1 file.2) as Hne.
  by destruct (parse_file upper_table file.1 file.2) as [[|kv record]|].
Qed.

Lemma load_files_from files st :
  fold_left (load_file upper_table) files st
  = (st.1 ++ file_records upper_table files,
     fold_left track_columns (file_records upper_table files) st.2).
Proof.
  revert st. induction files as [|file files IH]; intros st; cbn [fold_left].
  - destruct st. simpl. by rewrite app_nil_r.
  - rewrite IH, load_file_cases. unfold file_records. cbn [omap list_omap].
    destruct (parse_file upper_table file.1 file.2) as [record|]; [|done].
    cbn [fst snd fold_left]. by rewrite <- app_assoc.
Qed.

Lemma load_files_records files :
  load_files upper_table files
  = (file_records upper_table files,
     fold_left track_columns (file_records upper_table files) [lit "file"]).
Proof. unfold load_files. by rewrite load_files_from. Qed.

Lemma file_records_app files files' :
  file_records upper_table (files ++ files')
  = file_records upper_table files ++ file_records upper_table files'.
Proof. apply omap_app. Qed.

Lemma main_of_records files files' :
  file_records upper_table files = file_records upper_table files' ->
  main upper_table files = main upper_table files'.
Proof. intros H. unfold main. by rewrite !load_files_records, H. Qed.

(** X9: the run keeps one record per file that has content, in the order
    of the files, and the column order is built from these records alone; a
    file that is empty or whitespace only is skipped wherever it stands: the
    records, the column order and the outcome of the run are those of the
    run without it. *)
Theorem load_files_skips_blank_files (files : list (str * str)) :
  (load_files upper_table files).1 = file_records upper_table files
  /\ (load_files upper_table files).2
     = fold_left track_columns (file_records upper_table files) [lit "file"]
  /\ forall before name text after,
       files = before ++ (name, text) :: after -> strip text = [] ->
       load_files upper_table files = load_files upper_table (before ++ after)
       /\ main upper_table files = main upper_table (before ++ after).
Proof.
  rewrite load_files_records. split_and!; [done|done|].
  intros before name text after -> Hblank.
  assert (Hrecords : file_records upper_table (before ++ (name, text) :: after)
                     = file_records upper_table (before ++ after)).
  { rewrite !file_records_app. f_equal. unfold file_records. cbn [omap list_omap fst snd].
    unfold parse_file at 1. by rewrite Hblank. }
  split; [by rewrite load_files_records, Hrecords|by apply main_of_records].
Qed.

Lemma file_records_nil files :
  file_records upper_table files = []
  <-> Forall (fun file => strip file.2 = []) files.
Proof.
  unfold file_records. induction files as [|file files IH]; cbn [omap list_omap].
  - split; [constructor|done].
  - unfold parse_file at 1. destruct (strip file.2) as [|c t] eqn:Hs.
    + rewrite IH. split; [by constructor|by inversion_clear 1].
    + split; [done|]. inversion_clear 1. congruence.
Qed.

Lemma frame_column_None key records :
  frame_column key records = None
  <-> forall record, record ∈ records -> key ∉ dict_keys record.
Proof.
  split.
  - intros Hnone record Hrecord Hkey.
    destruct (frame_column_Some key records) as [column Hcolumn]; [by exists record|].
    congruence.
  - intros Hno. destruct (frame_column key records) as [column|] eqn:Hcolumn; [|done].
    destruct (frame_column_key _ _ _ Hcolumn) as (record & Hrecord & Hkey).
    by destruct (Hno record Hrecord).
Qed.

(** X10: the three outcomes of the run.  Nothing is written, with the
    message that there is no data, exactly when every file is empty or
    whitespace only (also when there is no file); the run fails with a
    KeyError, of the key METADATA_PARAMETERS and no other, exactly when some
    file has content and no record has that key; and the table is written
    exactly when some record has that key. *)
Theorem main_outcome (files : list (str * str)) :
  (main upper_table files = NoData
   <-> Forall (fun file => strip file.2 = []) files)
  /\ (forall key, main upper_table files = KeyError key ->
                  key = METADATA_PARAMETERS)
  /\ (main upper_table files = KeyError METADATA_PARAMETERS
      <-> file_records upper_table files <> []
          /\ forall record, record ∈ file_records upper_table files ->
                            METADATA_PARAMETERS ∉ dict_keys record)
  /\ ((exists columns rows, main upper_table files = Written columns rows)
      <-> exists record, record ∈ file_records upper_table files
                         /\ METADATA_PARAMETERS ∈ dict_keys record).
Proof.
  rewrite <- file_records_nil. unfold main. rewrite load_files_records.
  destruct (file_records upper_table files) as [|record records] eqn:Hrecords.
  - split_and!.
    + done.
    + by intros key [=].
    + split; [done|by intros [? _]].
    + split; [by intros (? & ? & [=])|]. by intros (? & ?%elem_of_nil & _).
  - destruct (frame_column METADATA_PARAMETERS (record :: records)) as [column|]
      eqn:Hcolumn.
    + apply frame_column_key in Hcolumn as (r & Hr & Hk). split_and!.
      * done.
      * by intros key [=].
      * split; [done|]. intros [_ Hno]. by destruct (Hno r Hr).
      * split; [|by eauto]. intros _. by exists r.
    + split_and!.
      * done.
      * by intros key [= <-].
      * split; [|done]. intros _. split; [done|]. by apply frame_column_None.
      * split; [by intros (? & ? & [=])|]. intros (r & Hr & Hk). exfalso.
        by apply (proj1 (frame_column_None _ _) Hcolumn r Hr).
Qed.

Lemma track_records_elem records order key :
  key ∈ fold_left track_columns records order
  <-> key ∈ order \/ exists record, record ∈ records /\ key ∈ dict_keys record.
Proof.
  revert order. induction records as [|record records IH]; intros order; cbn [fold_left].
  - split; [by left|]. by intros [?|(? & ?%elem_of_nil & _)].
  - rewrite IH. unfold track_columns. rewrite track_keys_elem. split.
    + intros [[?|?]|(r & Hr & ?)]; [by left|right|right].
      * exists record. split; [apply list_elem_of_here|done].
      * exists r. split; [by apply list_elem_of_further|done].
    + intros [?|(r & [->|Hr]%elem_of_cons & ?)]; [by left; left|by left; right|right].
      by exists r.
Qed.

(** X11: the columns of the table written are pairwise distinct, and they
    are exactly ["file"], the keys of the records and MODEL_SIZE_CATEGORY:
    no key of a record is without a column, and no column comes from
    elsewhere. *)
Theorem written_columns_cover_records
    (files : list (str * str)) (columns : list str) (rows : list row) :
  main upper_table files = Written columns rows ->
  NoDup columns
  /\ forall col,
       col ∈ columns
       <-> col = lit "file" \/ col = MODEL_SIZE_CATEGORY
           \/ exists record, record ∈ file_records upper_table files
                             /\ col ∈ dict_keys record.
Proof.
  intros [-> _]%main_written.
  pose proof (load_files_reachable upper_table files) as Hreach.
  apply column_order_reachable_invariant in Hreach as [_ Hnd].
  rewrite load_files_records in *. cbn [snd] in *.
  set (order := fold_left track_columns (file_records upper_table files) [lit "file"]) in *.
  assert (Horder : forall col, col ∈ order
            <-> col = lit "file"
                \/ exists record, record ∈ file_records upper_table files
                                  /\ col ∈ dict_keys record).
  { intros col. unfold order. by rewrite track_records_elem, list_elem_of_singleton. }
  rewrite insert_derived_unfold. case_bool_decide as Hin.
  - split; [done|]. intros col. rewrite Horder. split; [tauto|].
    intros [?|[->|?]]; [tauto| |tauto]. by apply Horder.
  - split; [by apply list_insert_at_NoDup|]. intros col.
    rewrite list_insert_at_elem, Horder. tauto.
Qed.

End DriverRuns.

(** The theorem at a blank file between the two files with tables. *)
Lemma load_files_skips_blank_files_witness :
  main identity_table [file_7500M; (lit "e.txt", lit "  " ++ [newline]); file_500M]
  = main identity_table [file_7500M; file_500M].
Proof.
  apply (proj2 (proj2 (load_files_skips_blank_files identity_table
            [file_7500M; (lit "e.txt", lit "  " ++ [newline]); file_500M]))
           [file_7500M] (lit "e.txt") (lit "  " ++ [newline]) [file_500M]);
    reflexivity.
Defined.

(** The theorem at a file without a METADATA table. *)
Lemma main_outcome_witness :
  main identity_table [file_without_metadata] = KeyError METADATA_PARAMETERS.
Proof.
  destruct (main_outcome identity_table [file_without_metadata]) as (_ & _ & H & _).
  apply H. split; [discriminate|].
  intros record Hrecord%list_elem_of_In. vm_compute in Hrecord.
  destruct Hrecord as [<-|[]]. intros Hkey%list_elem_of_In. vm_compute in Hkey.
  repeat (destruct Hkey as [Hkey|Hkey]; [discriminate Hkey|]). exact Hkey.
Defined.

(** The theorem at the two files with tables. *)
Lemma written_columns_cover_records_witness :
  exists columns rows,
    main identity_table [file_7500M; file_500M] = Written columns rows
    /\ NoDup columns.
Proof.
  eexists _, _. split; [vm_compute; reflexivity|].
  eapply (written_columns_cover_records identity_table [file_7500M; file_500M]).
  vm_compute. reflexivity.
Defined.

(* ================================================================== *)
(** * 20. More on the size buckets and the rows *)
(* ================================================================== *)

Lemma lt_int_mono x y z :
  float_le x y -> PyFloat.lt_int y z = true -> PyFloat.lt_int x z = true.
Proof.
  rewrite !lt_int_below.
  destruct x as [a|[]|], y as [b|[]|]; simpl; try done.
  apply Qle_lt_trans.
Qed.

Lemma float_le_total x y :
  x <> PyFloat.NaN -> y <> PyFloat.NaN -> float_le x y \/ float_le y x.
Proof.
  destruct x as [a|[]|], y as [b|[]|]; simpl; try done; try tauto.
  intros _ _. destruct (Qlt_le_dec a b) as [H|H]; [left|by right].
  by apply Qlt_le_weak.
Qed.

Lemma bucket_of_mono x y :
  float_le x y -> (bucket_of (Some x) <= bucket_of (Some y))%nat.
Proof.
  intros Hle. unfold bucket_of, size_category.
  pose proof (lt_int_mono x y 1000000000 Hle) as H9.
  pose proof (lt_int_mono x y 10000000000 Hle) as H10.
  pose proof (lt_int_mono x y 100000000000 Hle) as H11.
  destruct (PyFloat.lt_int y 1000000000).
  { rewrite H9 by done. vm_compute. lia. }
  destruct (PyFloat.lt_int y 10000000000).
  { rewrite H10 by done. destruct (PyFloat.lt_int x 1000000000); vm_compute; lia. }
  destruct (PyFloat.lt_int y 100000000000).
  { rewrite H11 by done.
    destruct (PyFloat.lt_int x 1000000000), (PyFloat.lt_int x 10000000000);
      vm_compute; lia. }
  destruct (PyFloat.lt_int x 1000000000), (PyFloat.lt_int x 10000000000),
    (PyFloat.lt_int x 100000000000); vm_compute; lia.
Qed.

Lemma make_rows_elem records params r :
  r ∈ make_rows records params ->
  (row_record r, row_params r) ∈ combine records params
  /\ row_category r = size_category (row_params r).
Proof.
  unfold make_rows. intros H%list_elem_of_In%in_map_iff.
  destruct H as ([record p] & <- & Hin). split; [|done]. by apply list_elem_of_In.
Qed.

Lemma combine_map_elem {A B} (f : A -> B) (l : list A) a b :
  (a, b) ∈ combine l (map f l) -> a ∈ l /\ b = f a.
Proof.
  induction l as [|x l IH]; simpl; [by intros ?%elem_of_nil|].
  intros [[= -> ->]|H]%elem_of_cons.
  - split; [apply list_elem_of_here|done].
  - destruct (IH H) as [? ?]. split; [by apply list_elem_of_further|done].
Qed.

Lemma frame_column_cells key records column :
  frame_column key records = Some column ->
  column = map (fun r => from_option CStr CNaN (dict_get r key)) records.
Proof. unfold frame_column. destruct (existsb _ records); [|done]. by intros [= <-]. Qed.

Section Rows.

Variable upper_table : char -> str.

Lemma some_count_parsed_existsb records :
  existsb (fun r => bool_decide (is_Some r))
          (map (fun c => parse_parameters upper_table (Some c))
               (map parameters_cell records)) = true
  <-> some_count_parsed upper_table records.
Proof.
  rewrite existsb_exists. unfold some_count_parsed. split.
  - intros (p & Hp & Hsome). apply bool_decide_eq_true_1 in Hsome.
    apply in_map_iff in Hp as (c & <- & Hc). apply in_map_iff in Hc as (r & <- & Hr).
    exists r. split; [by apply list_elem_of_In|done].
  - intros (r & Hr & Hsome).
    exists (parse_parameters upper_table (Some (parameters_cell r))).
    split; [|by apply bool_decide_eq_true_2].
    apply in_map_iff. exists (parameters_cell r). split; [done|].
    apply in_map_iff. exists r. split; [done|by apply list_elem_of_In].
Qed.

(** The count of a row as the run computes it from the record of the row. *)
Lemma written_row_params files columns rows r :
  main upper_table files = Written columns rows -> r ∈ rows ->
  row_record r ∈ file_records upper_table files
  /\ row_category r = size_category (row_params r)
  /\ exists any : bool,
       (any = true <-> some_count_parsed upper_table (file_records upper_table files))
       /\ row_params r
          = match parse_parameters upper_table
                    (Some (parameters_cell (row_record r))) with
            | Some x => Some x
            | None => if any then Some PyFloat.NaN else None
            end.
Proof.
  intros (_ & column & Hcolumn & ->)%main_written Hr.
  rewrite sort_values_perm in Hr. rewrite load_files_records in *. cbn [fst] in *.
  apply frame_column_cells in Hcolumn.
  fold parameters_cell in Hcolumn. subst column.
  apply make_rows_elem in Hr as [Hin Hcategory].
  set (records := file_records upper_table files) in *.
  unfold apply_parse_parameters in Hin.
  destruct (existsb _ _) eqn:Hany.
  - apply some_count_parsed_existsb in Hany.
    rewrite !map_map in Hin. apply combine_map_elem in Hin as [Hrec Hp].
    split_and!; [done|done|]. exists true. split; [done|]. rewrite Hp.
    by destruct (parse_parameters upper_table _).
  - assert (Hnone : ~ some_count_parsed upper_table records).
    { intros H%some_count_parsed_existsb. congruence. }
    rewrite !map_map in Hin. apply combine_map_elem in Hin as [Hrec Hp].
    split_and!; [done|done|]. exists false. split; [done|]. rewrite Hp.
    by destruct (parse_parameters upper_table _).
Qed.

(** X13: the count and the category of a row, from the record of the row.
    A record whose METADATA_PARAMETERS parses has that count and its size
    category.  A record whose METADATA_PARAMETERS does not parse, or that has
    no such key, is without a count; its category is "Unknown" only when no
    record of the run parses: as soon as one record parses, the series of
    counts is a float series, the missing count is NaN, and the category is
    "Ultra-Large (100B+)". *)
Theorem unparsed_rows_category
    (files : list (str * str)) (columns : list str) (rows : list row) (r : row) :
  main upper_table files = Written columns rows -> r ∈ rows ->
  (forall x,
     parse_parameters upper_table (Some (parameters_cell (row_record r))) = Some x ->
     row_params r = Some x /\ row_category r = size_category (Some x))
  /\ (parse_parameters upper_table (Some (parameters_cell (row_record r))) = None ->
      (some_count_parsed upper_table (file_records upper_table files) ->
       row_params r = Some PyFloat.NaN
       /\ row_category r = lit "Ultra-Large (100B+)")
      /\ (~ some_count_parsed upper_table (file_records upper_table files) ->
          row_params r = None /\ row_category r = lit "Unknown")).
Proof.
  intros Hmain Hr.
  destruct (written_row_params files columns rows r Hmain Hr)
    as (_ & Hcat & any & Hany & Hp).
  split.
  - intros x Hx. rewrite Hx in Hp. by rewrite Hcat, Hp.
  - intros Hnone. rewrite Hnone in Hp. split.
    + intros Hsome. apply Hany in Hsome. subst any. by rewrite Hcat, Hp.
    + intros Hno. destruct any; [by destruct Hno; apply Hany|]. by rewrite Hcat, Hp.
Qed.

(** X12: the bucket index never decreases with the parameter count, so the
    two sort keys agree: the rows that have a count stand in ascending order
    of count over the whole table, not only within a bucket. *)
Theorem rows_ascend_by_count
    (files : list (str * str)) (columns : list str) (rows : list row) :
  main upper_table files = Written columns rows ->
  (forall x y, float_le x y -> (bucket_of (Some x) <= bucket_of (Some y))%nat)
  /\ forall i j a b x y,
       (i < j)%nat -> rows !! i = Some a -> rows !! j = Some b ->
       row_params a = Some x -> row_params b = Some y ->
       x <> PyFloat.NaN -> y <> PyFloat.NaN ->
       float_le x y.
Proof.
  intros Hmain. split; [apply bucket_of_mono|].
  intros i j a b x y Hij Ha Hb Hx Hy Hxn Hyn.
  assert (Hbucket : forall r, r ∈ rows -> row_bucket r = bucket_of (row_params r)).
  { intros r Hr.
    destruct (written_row_params files columns rows r Hmain Hr) as (_ & Hcat & _).
    unfold row_bucket, bucket_of. by rewrite Hcat. }
  pose proof (Hbucket a (list_elem_of_lookup_2 _ _ _ Ha)) as Hba.
  pose proof (Hbucket b (list_elem_of_lookup_2 _ _ _ Hb)) as Hbb.
  rewrite Hx in Hba. rewrite Hy in Hbb. clear Hbucket.
  apply main_written in Hmain as (_ & column & _ & ->).
  assert (Hleb : row_leb a b = true).
  { exact (StronglySorted_lookup (fun a b => row_leb a b = true) _ i j a b
             (sort_values_sorted _) Hij Ha Hb). }
  apply row_leb_before in Hleb as [Hle Heq]. rewrite Hba, Hbb in Hle, Heq.
  destruct (float_le_total x y Hxn Hyn) as [H|H]; [done|].
  apply bucket_of_mono in H.
  destruct (Heq ltac:(lia)) as [_ Hcount]. by apply (Hcount x y).
Qed.

End Rows.

(** The theorem at the files of 7.5 B and 500 M and a file without a
    METADATA table: its row has no count and is filed as Ultra-Large. *)
Lemma unparsed_rows_category_witness :
  exists columns a b c,
    main identity_table [file_7500M; file_500M; file_without_metadata]
    = Written columns [a; b; c]
    /\ dict_get (row_record c) (lit "file") = Some (lit "c.txt")
    /\ row_params c = Some PyFloat.NaN
    /\ row_category c = lit "Ultra-Large (100B+)".
Proof.
  eexists _, _, _, _. split; [vm_compute; reflexivity|]. split; [reflexivity|].
  eapply (proj2 (unparsed_rows_category identity_table
                   [file_7500M; file_500M; file_without_metadata] _ _ _
                   ltac:(vm_compute; reflexivity)
                   ltac:(apply list_elem_of_further, list_elem_of_further,
                           list_elem_of_here))).
  - reflexivity.
  - exists (default [] (parse_file identity_table file_7500M.1 file_7500M.2)).
    split; [apply list_elem_of_here|]. vm_compute. by eexists.
Defined.

(** The theorem at the files of 7.5 B and 500 M. *)
Lemma rows_ascend_by_count_witness :
  exists columns a b,
    main identity_table [file_7500M; file_500M] = Written columns [a; b]
    /\ row_params a = Some (PyFloat.Finite 500000000)
    /\ row_params b = Some (PyFloat.Finite 7500000000)
    /\ float_le (PyFloat.Finite 500000000) (PyFloat.Finite 7500000000).
Proof.
  eexists _, _, _. split; [vm_compute; reflexivity|].
  split; [reflexivity|]. split; [reflexivity|].
  eapply (proj2 (rows_ascend_by_count identity_table [file_7500M; file_500M] _ _
                   ltac:(vm_compute; reflexivity)) 0%nat 1%nat);
    [lia|reflexivity|reflexivity|reflexivity|reflexivity|discriminate|discriminate].
Defined.

Lemma dyadic_nonneg m p : (0 <= m)%Z -> (0 <= PyFloat.dyadic m p)%Q.
Proof.
  intros Hm. unfold PyFloat.dyadic. destruct (0 <=? p)%Z eqn:Hp.
  - unfold Qle. simpl. apply Z.leb_le in Hp.
    pose proof (Z.pow_nonneg 2 p ltac:(lia)). nia.
  - rewrite Qred_correct. unfold Qle. simpl. lia.
Qed.

Lemma round_pos_nonneg n d :
  (0 < n)%Z -> (0 < d)%Z -> float_nonneg (PyFloat.round_pos n d).
Proof.
  intros Hn Hd. unfold PyFloat.round_pos.
  set (p := Z.max (PyFloat.binade n d - 52) (-1074)).
  assert (Hscale : (0 <= (PyFloat.scale n d p).1 /\ 0 < (PyFloat.scale n d p).2)%Z).
  { unfold PyFloat.scale. destruct (0 <=? p)%Z eqn:Hp; cbn [fst snd].
    - apply Z.leb_le in Hp. pose proof (Z.pow_pos_nonneg 2 p ltac:(lia) Hp). nia.
    - apply Z.leb_gt in Hp. pose proof (Z.pow_pos_nonneg 2 (- p) ltac:(lia) ltac:(lia)).
      nia. }
  destruct (PyFloat.scale n d p) as [a b]. cbn [fst snd] in Hscale.
  destruct Hscale as [Ha Hb].
  pose proof (Z.div_pos a b Ha Hb) as Hm.
  match goal with |- float_nonneg (if ?c then _ else _) => destruct c end; [done|].
  apply dyadic_nonneg.
  match goal with |- (0 <= if ?c then _ else _)%Z => destruct c end; lia.
Qed.

Lemma round_nonneg q : (0 <= q)%Q -> float_nonneg (PyFloat.round q).
Proof.
  intros Hq. unfold PyFloat.round. destruct q as [n d]. cbn [Qnum Qden].
  destruct n as [|n|n].
  - done.
  - by apply round_pos_nonneg.
  - unfold Qle in Hq. simpl in Hq. lia.
Qed.

Lemma digits_value_nonneg s :
  Forall (fun c => is_digit c = true) s -> (0 <= PyFloat.digits_value s)%Z.
Proof.
  intros H. unfold PyFloat.digits_value.
  assert (Hgen : forall acc, (0 <= acc)%Z ->
            (0 <= fold_left (fun acc c => 10 * acc + (Z.of_N c - 48)) s acc)%Z).
  { induction H as [|c s Hc _ IH]; intros acc Hacc; cbn [fold_left]; [done|].
    apply IH. unfold is_digit in Hc. apply andb_true_iff in Hc as [Hc _].
    apply N.leb_le in Hc. lia. }
  by apply Hgen.
Qed.

Lemma of_decimal_nonneg ip fd :
  Forall (fun c => is_digit c = true) ip -> Forall (fun c => is_digit c = true) fd ->
  float_nonneg (PyFloat.of_decimal ip fd).
Proof.
  intros Hip Hfd. unfold PyFloat.of_decimal. apply round_nonneg.
  unfold Qle. simpl.
  pose proof (digits_value_nonneg (ip ++ fd) ltac:(by apply Forall_app)). lia.
Qed.

Lemma mul_nonneg a y :
  float_nonneg a -> (0 < y)%Q ->
  float_nonneg (PyFloat.mul a (PyFloat.Finite y)).
Proof.
  intros Ha Hy. destruct a as [x|[]|]; simpl in *; try done.
  - apply round_nonneg. apply Qmult_le_0_compat; [done|by apply Qlt_le_weak].
  - assert (Hz : PyFloat.Qis_zero y = false).
    { unfold PyFloat.Qis_zero. unfold Qlt in Hy. simpl in Hy. apply Z.eqb_neq. lia. }
    assert (Hn : PyFloat.Qltb y 0 = false).
    { unfold PyFloat.Qltb. unfold Qlt in Hy. simpl in *. apply Z.ltb_ge. lia. }
    by rewrite Hz, Hn.
Qed.

Lemma multiplier_of_cases unit m :
  multiplier_of unit = Some m -> m = 1000%Z \/ m = 1000000%Z \/ m = 1000000000%Z.
Proof.
  unfold multiplier_of. repeat case_bool_decide; intros [= <-]; tauto.
Qed.

(** X14: a count that [parse_parameters] returns is zero, a positive
    number or plus infinity (an amount of very many digits): never negative
    and never NaN; so a parsed count is never taken as missing by the sort,
    and its category is never "Unknown". *)
Theorem parse_parameters_nonneg
    (upper_table : char -> str) (value : option cell) (f : PyFloat.float) :
  parse_parameters upper_table value = Some f ->
  float_nonneg f
  /\ params_missing (Some f) = false
  /\ size_category (Some f) <> lit "Unknown".
Proof.
  intros Hparse.
  assert (Hnonneg : float_nonneg f).
  { unfold parse_parameters in Hparse. destruct value as [value|]; [|done].
    destruct (strip (str_of_cell value)) as [|c text] eqn:Htext; [done|].
    destruct (match_parameters (c :: text)) as [[[ip fd] u]|] eqn:Hmatch; [|done].
    destruct (multiplier_of (upper upper_table [u])) as [m|] eqn:Hm; [|done].
    injection Hparse as <-.
    apply match_parameters_sound in Hmatch as (ws & rest & _ & _ & Hip & Hfd & _).
    pose proof (of_decimal_nonneg ip fd Hip Hfd) as Hamount.
    apply multiplier_of_cases in Hm as [->|[->| ->]];
      by apply (mul_nonneg _ _ Hamount). }
  split_and!; [done| |].
  - by destruct f as [q|[]|].
  - unfold size_category.
    repeat match goal with |- context [if ?c then _ else _] => destruct c end;
      discriminate.
Qed.

(** The theorem at ["22.57 M"]. *)
Lemma parse_parameters_nonneg_witness :
  float_nonneg (PyFloat.Finite 22570000).
Proof.
  apply (parse_parameters_nonneg identity_table (Some (CStr (lit "22.57 M")))
           (PyFloat.Finite 22570000)).
  reflexivity.
Defined.

Lemma insert_row_filter r x l :
  List.filter (same_sort_key r) (insert_row x l)
  = List.filter (same_sort_key r) (x :: l).
Proof.
  induction l as [|y l IH]; [done|]. cbn [insert_row].
  destruct (row_leb x y) eqn:Hxy; [done|].
  cbn [List.filter] in *. rewrite IH.
  destruct (same_sort_key r x) eqn:Hx, (same_sort_key r y) eqn:Hy; try done.
  exfalso. unfold same_sort_key in Hx, Hy.
  apply andb_true_iff in Hx as [_ Hxr]. apply andb_true_iff in Hy as [Hry _].
  by rewrite (row_leb_trans x r y Hxr Hry) in Hxy.
Qed.

Lemma sort_values_stable r rows :
  List.filter (same_sort_key r) (sort_values rows)
  = List.filter (same_sort_key r) rows.
Proof.
  induction rows as [|x rows IH]; [done|].
  cbn [sort_values fold_right]. fold (sort_values rows).
  rewrite insert_row_filter. cbn [List.filter]. by rewrite IH.
Qed.

Lemma filter_sublist {A} (f : A -> bool) (l : list A) : List.filter f l `sublist_of` l.
Proof.
  induction l as [|x l IH]; simpl; [done|].
  destruct (f x); [by apply sublist_skip|by apply sublist_cons].
Qed.

Section WrittenRows.

Variable upper_table : char -> str.

(** X15: the sort is stable: the rows that have the same bucket index and
    the same count, or no count either, are written in the order in which
    their files were read. *)
Theorem equal_rows_keep_file_order
    (files : list (str * str)) (columns : list str) (rows : list row) (r : row) :
  main upper_table files = Written columns rows ->
  map row_record (List.filter (same_sort_key r) rows)
    `sublist_of` file_records upper_table files.
Proof.
  intros (_ & column & Hcolumn & ->)%main_written.
  rewrite sort_values_stable. rewrite load_files_records in *. cbn [fst] in *.
  rewrite <- (make_rows_records (file_records upper_table files)
                (apply_parse_parameters upper_table column)) at 2.
  - apply (fmap_sublist row_record), filter_sublist.
  - by rewrite apply_parse_parameters_length, (frame_column_length _ _ _ Hcolumn).
Qed.

Lemma file_records_elem files record :
  record ∈ file_records upper_table files ->
  exists file, file ∈ files /\ strip file.2 <> []
               /\ parse_file upper_table file.1 file.2 = Some record
               /\ dict_get record (lit "file") = Some file.1.
Proof.
  unfold file_records. rewrite list_elem_of_omap. intros (file & Hfile & Hparse).
  exists file.
  assert (Htext : strip file.2 <> []).
  { intros H. unfold parse_file in Hparse. by rewrite H in Hparse. }
  split_and!; [done|done|done|].
  rewrite parse_file_some in Hparse by done. injection Hparse as <-.
  by destruct (merge_blocks_invariant upper_table (split_blocks file.2)
                 [(lit "file", file.1)] file.1) as (_ & H & _);
    [apply NoDup_singleton|done|].
Qed.

(** X16: the table written has one line per file that has content and, in
    each line, one cell per column; the first column is ["file"], and the
    first cell of a line is the name of the file whose record the line
    holds. *)
Theorem written_lines
    (files : list (str * str)) (columns : list str) (rows : list row) :
  main upper_table files = Written columns rows ->
  exists lines,
    written_cells (main upper_table files) = Some (columns, lines)
    /\ head columns = Some (lit "file")
    /\ length lines = length (file_records upper_table files)
    /\ Forall (fun line => length line = length columns) lines
    /\ Forall (fun line =>
                 exists file, file ∈ files /\ strip file.2 <> []
                              /\ head line = Some (CStr file.1)) lines.
Proof.
  intros Hmain. exists (map (render_row columns) rows).
  assert (Hhead : head columns = Some (lit "file")).
  { destruct (main_written _ _ _ _ Hmain) as [-> _].
    apply column_order_reachable_invariant.
    eapply reachable_step; [apply load_files_reachable|constructor]. }
  split_and!.
  - by rewrite Hmain.
  - done.
  - rewrite length_map.
    destruct (main_written _ _ _ _ Hmain) as (_ & column & Hcolumn & ->).
    rewrite (Permutation_length (sort_values_perm _)).
    unfold make_rows. rewrite length_map, length_combine, load_files_records. cbn [fst].
    rewrite apply_parse_parameters_length, (frame_column_length _ _ _ Hcolumn).
    rewrite load_files_records. cbn [fst]. lia.
  - apply Forall_forall. intros line (r & <- & _)%list_elem_of_In%in_map_iff.
    unfold render_row. by rewrite length_map.
  - apply Forall_forall. intros line (r & <- & Hr%list_elem_of_In)%list_elem_of_In%in_map_iff.
    destruct (written_row_params upper_table files columns rows r Hmain Hr)
      as (Hrecord & _).
    destruct (file_records_elem files _ Hrecord) as (file & Hfile & Htext & _ & Hname).
    exists file. split_and!; [done|done|].
    destruct columns as [|col columns]; [done|]. injection Hhead as ->.
    unfold render_row. cbn [map head]. rewrite bool_decide_eq_false_2 by done.
    by rewrite Hname.
Qed.

End WrittenRows.

(** The theorem at two files of the same count: both rows have the sort
    key of 500 M, and they are written as their files are read. *)
Lemma equal_rows_keep_file_order_witness :
  exists columns rows,
    main identity_table [file_500M; (lit "z.txt", file_500M.2)] = Written columns rows
    /\ map row_record
         (List.filter
            (same_sort_key
               (Build_row [] (Some (PyFloat.Finite 500000000)) (lit "Small (<1B)")))
            rows)
       `sublist_of` file_records identity_table [file_500M; (lit "z.txt", file_500M.2)].
Proof.
  eexists _, _. split; [vm_compute; reflexivity|].
  eapply (equal_rows_keep_file_order identity_table
            [file_500M; (lit "z.txt", file_500M.2)]).
  vm_compute. reflexivity.
Defined.

(** The theorem at the two files with tables. *)
Lemma written_lines_witness :
  exists lines,
    written_cells (main identity_table [file_7500M; file_500M])
    = Some ([lit "file"; METADATA_PARAMETERS; MODEL_SIZE_CATEGORY; lit "METADATA_X"],
            lines)
    /\ length lines = 2%nat.
Proof.
  destruct (written_lines identity_table [file_7500M; file_500M] _ _
              ltac:(vm_compute; reflexivity)) as (lines & H1 & _ & H3 & _).
  exists lines. split; [exact H1|exact H3].
Defined.

Lemma reconcile_lookup columns n i :
  (i < n)%nat -> (i < length columns)%nat ->
  reconcile columns n !! i = columns !! i.
Proof.
  intros Hn Hi. unfold reconcile.
  destruct (length columns <? n)%nat; [by rewrite lookup_app_l|].
  destruct (n <? length columns)%nat; [by rewrite lookup_take_lt|done].
Qed.

(** X17: reconciling the names with the data row only cuts or adds at the
    end: there is one name per data cell afterwards in every case, and a
    name that has a data cell under it keeps its place. *)
Theorem reconcile_keeps_names_in_place
    (upper_table : char -> str) (block : list str) (data_row : list str) (i : nat) :
  length (block_columns upper_table block data_row) = length data_row
  /\ ((i < length data_row)%nat ->
      (i < length (block_normalized_columns upper_table block))%nat ->
      block_columns upper_table block data_row !! i
      = block_normalized_columns upper_table block !! i).
Proof.
  split; [apply reconcile_length|]. intros Hdata Hnames. by apply reconcile_lookup.
Qed.

(** The theorem at a block of three names and two cells. *)
Lemma reconcile_keeps_names_in_place_witness :
  block_columns identity_table
    [lit "| T |"; lit "| a | b | c |"; lit "| 1 | 2 |"] [lit "1"; lit "2"] !! 1%nat
  = Some (lit "b").
Proof.
  rewrite (proj2 (reconcile_keeps_names_in_place identity_table
                    [lit "| T |"; lit "| a | b | c |"; lit "| 1 | 2 |"]
                    [lit "1"; lit "2"] 1%nat)).
  - reflexivity.
  - simpl. lia.
  - vm_compute. lia.
Defined.

(* ================================================================== *)
(** * 21. The column order through the run *)
(* ================================================================== *)

Lemma track_keys_prefix keys order : order `prefix_of` fold_left track_key keys order.
Proof.
  revert order. induction keys as [|key keys IH]; intros order; cbn [fold_left]; [done|].
  etrans; [|apply IH].
  destruct (track_key_cases order key) as [[_ ->]|[_ ->]]; [done|by apply prefix_app_r].
Qed.

(** The keys of a record that are not in the order yet are appended, in the
    order of the record. *)
Lemma track_keys_new keys order :
  NoDup keys ->
  fold_left track_key keys order
  = order ++ List.filter (fun key => bool_decide (key ∉ order)) keys.
Proof.
  intros Hnd. revert order. induction Hnd as [|key keys Hkey _ IH]; intros order;
    cbn [fold_left List.filter].
  - by rewrite app_nil_r.
  - rewrite IH. destruct (track_key_cases order key) as [[Hin ->]|[Hnew ->]].
    + by rewrite (bool_decide_eq_false_2 (key ∉ order)) by (by intros H; apply H).
    + rewrite (bool_decide_eq_true_2 (key ∉ order)) by done.
      rewrite <- app_assoc. cbn [app]. do 2 f_equal.
      apply filter_ext_in. intros k Hk%list_elem_of_In.
      apply bool_decide_ext. rewrite not_elem_of_app, list_elem_of_singleton.
      split; [by intros [? _]|]. intros Hko. split; [done|]. by intros ->.
Qed.

Lemma track_records_prefix records order :
  order `prefix_of` fold_left track_columns records order.
Proof.
  revert order. induction records as [|record records IH]; intros order;
    cbn [fold_left]; [done|].
  etrans; [|apply IH]. apply track_keys_prefix.
Qed.

Section ColumnOrderRun.

Variable upper_table : char -> str.

Lemma parse_file_keys_NoDup name text record :
  parse_file upper_table name text = Some record -> NoDup (dict_keys record).
Proof.
  intros Hrecord.
  assert (Htext : strip text <> []).
  { intros H. unfold parse_file in Hrecord. by rewrite H in Hrecord. }
  rewrite parse_file_some in Hrecord by done. injection Hrecord as <-.
  by destruct (merge_blocks_invariant upper_table (split_blocks text)
                 [(lit "file", name)] name) as (H & _);
    [apply NoDup_singleton|done|].
Qed.

Lemma load_files_order_app files files' :
  (load_files upper_table (files ++ files')).2
  = fold_left track_columns (file_records upper_table files')
              (load_files upper_table files).2.
Proof.
  rewrite !load_files_records. cbn [snd].
  by rewrite file_records_app, fold_left_app.
Qed.

(** C9: through the run the column order starts with ["file"] and holds no
    key twice.  Reading one more file leaves the order as it is when the
    file is skipped, and otherwise appends to it the keys of the file's
    record that are not in it yet, in the order of the record, and nothing
    else; so the order after any number of files is a prefix of the order
    after more files, and a key, once seen, keeps its place before every key
    seen later.  One key at a time: a key that is there is not added again,
    a key that is not is appended.  Placing the derived column leaves the
    order as it is when a record has that key, and otherwise puts
    MODEL_SIZE_CATEGORY between two parts of the order, after ["file"],
    without moving any key. *)
Theorem column_order_only_appends_new_keys :
  (forall files,
     head (load_files upper_table files).2 = Some (lit "file")
     /\ NoDup (load_files upper_table files).2)
  /\ (forall order key,
        ((key ∈ order) /\ track_key order key = order)
        \/ ((key ∉ order) /\ track_key order key = order ++ [key]))
  /\ (forall files file,
        (load_files upper_table (files ++ [file])).2
        = match parse_file upper_table file.1 file.2 with
          | None => (load_files upper_table files).2
          | Some record =>
              (load_files upper_table files).2
              ++ List.filter
                   (fun key => bool_decide (key ∉ (load_files upper_table files).2))
                   (dict_keys record)
          end)
  /\ (forall files files',
        (load_files upper_table files).2
          `prefix_of` (load_files upper_table (files ++ files')).2)
  /\ (forall files columns rows,
        main upper_table files = Written columns rows ->
        head columns = Some (lit "file") /\ NoDup columns
        /\ (((MODEL_SIZE_CATEGORY ∈ (load_files upper_table files).2)
             /\ columns = (load_files upper_table files).2)
            \/ ((MODEL_SIZE_CATEGORY ∉ (load_files upper_table files).2)
                /\ exists before after,
                     (load_files upper_table files).2 = before ++ after
                     /\ before <> []
                     /\ columns = before ++ MODEL_SIZE_CATEGORY :: after))).
Proof.
  assert (Hinv : forall files,
            head (load_files upper_table files).2 = Some (lit "file")
            /\ NoDup (load_files upper_table files).2).
  { intros files. apply column_order_reachable_invariant, load_files_reachable. }
  split_and!.
  - exact Hinv.
  - apply track_key_cases.
  - intros files file. rewrite load_files_order_app.
    unfold file_records. cbn [omap list_omap].
    destruct (parse_file upper_table file.1 file.2) as [record|] eqn:Hparse;
      cbn [fold_left]; [|done].
    unfold track_columns. apply track_keys_new.
    by apply (parse_file_keys_NoDup file.1 file.2).
  - intros files files'. rewrite load_files_order_app. apply track_records_prefix.
  - intros files columns rows [-> _]%main_written.
    destruct (Hinv files) as [Hhead Hnd].
    set (order := (load_files upper_table files).2) in *.
    rewrite insert_derived_unfold.
    destruct (decide (MODEL_SIZE_CATEGORY ∈ order)) as [Hin|Hin].
    + rewrite bool_decide_eq_true_2 by done. split_and!; [done|done|by left].
    + rewrite bool_decide_eq_false_2 by done.
      assert (Hpos : (0 < insert_position order)%nat).
      { apply insert_position_pos. by destruct order. }
      split_and!.
      * by apply list_insert_at_head.
      * by apply list_insert_at_NoDup.
      * right. split; [done|].
        exists (firstn (insert_position order) order),
               (skipn (insert_position order) order).
        split_and!; [by rewrite firstn_skipn| |done].
        destruct order, (insert_position _); simpl; try done. lia.
Qed.

End ColumnOrderRun.

(** The theorem at the run of the file of 7.5 B followed by a file with a
    table T: the keys of T come after the keys of the first file. *)
Lemma column_order_only_appends_new_keys_witness :
  (load_files identity_table [file_7500M; file_without_metadata]).2
  = (load_files identity_table [file_7500M]).2 ++ [lit "T_x"; lit "T_y"]
  /\ (load_files identity_table [file_7500M]).2
     = [lit "file"; METADATA_PARAMETERS; lit "METADATA_X"].
Proof.
  destruct (column_order_only_appends_new_keys identity_table) as (_ & _ & H & _).
  split; [|vm_compute; reflexivity].
  change [file_7500M; file_without_metadata] with ([file_7500M] ++ [file_without_metadata]).
  rewrite (H [file_7500M] file_without_metadata). vm_compute. reflexivity.
Defined.
